(** * Replay engine of the desktop simulation viewer

    A shallow embedding of [desktop_app/model.py] and
    [desktop_app/controller.py]: the event log container
    [SimulationData], the transport interpolator [Transport.progress]
    and the playback controller [SimulationController], followed by
    the properties of the replay engine.

    Conventions.
    - Simulation times ([float] in the source) are exact rationals [Q].
      The engine only compares times, clamps them with [min]/[max] and
      adds the grace constant [0.1] or a delta; stored times are always
      copies of event times or of the clamped target.
    - Python [int] is [Z]; [str] is [string]; [Optional[T]] is
      [option T]; a [dict] is a [gmap] (dictionary equality in Python
      ignores insertion order).
    - A raised exception is the left injection of a sum. *)

From Stdlib Require Import QArith Lqa.
From stdpp Require Import gmap strings pretty list sorting.

Local Open Scope string_scope.
Local Open Scope Z_scope.

(** ** Python helpers *)

(** [max(a, b)] of Python returns [a] unless [b > a]. *)
Definition py_max (a b : Q) : Q := if Qlt_le_dec a b then b else a.

(** [min(a, b)] of Python returns [a] unless [b < a]. *)
Definition py_min (a b : Q) : Q := if Qlt_le_dec b a then b else a.

(** Truth value of a [str]: the empty string is falsy. *)
Definition truthy (s : string) : bool := negb (String.eqb s EmptyString).

(** Truth value of an [Optional[str]]: [None] and the empty string
    are falsy. *)
Definition truthy_opt (o : option string) : bool :=
  match o with
  | Some s => truthy s
  | None => false
  end.

(** [a or b] on two [str]. *)
Definition or_str (a b : string) : string := if truthy a then a else b.

(** [a or b] with [a : Optional[str]] and [b : str]. *)
Definition or_opt_str (a : option string) (b : string) : option string :=
  if truthy_opt a then a else Some b.

(** [a or b] with [a : str] and [b : Optional[str]]. *)
Definition or_str_opt (a : string) (b : option string) : option string :=
  if truthy a then Some a else b.

(** [a or b] on two [Optional[str]]. *)
Definition or_opt (a b : option string) : option string :=
  if truthy_opt a then a else b.

(** ** model.py *)

Record MachineEvent := mkMachineEvent {
  time_min : Q;
  time_ts : string;
  machine : string;
  event : string;
  product_id : string;
  entity_id : string;
  from_machine : option string;
  to_machine : option string;
  queue_length : option Z
}.

Abbreviation TransportKey := (string * string)%type.

Record Transport := mkTransport {
  t_product_id : string;
  t_entity_id : string;
  t_from_machine : option string;
  t_to_machine : option string;
  t_start_time : Q;
  t_end_time : option Q
}.

(** [Transport.progress] *)
Definition progress (self : Transport) (clock : Q) : Q :=
  match t_end_time self with
  | None => 0%Q
  | Some e =>
      let duration := (e - t_start_time self)%Q in
      if Qle_bool duration 0 then 1%Q
      else py_max 0 (py_min 1 ((clock - t_start_time self) / duration))
  end.

Record MachineState := mkMachineState {
  ms_machine : string;
  queue : Z;
  status : string;
  last_event : option string;
  transports_out : gmap TransportKey Transport
}.

(** [MachineState(name)]: the dataclass defaults. *)
Definition MachineState_new (name : string) : MachineState :=
  {| ms_machine := name; queue := 0; status := "idle";
     last_event := None; transports_out := ∅ |}.

(** [MachineState.color_key] *)
Definition color_key (self : MachineState) : string :=
  if String.eqb (status self) "breakdown" then "breakdown"
  else if String.eqb (status self) "processing" then "processing"
  else if 0 <? queue self then "queue"
  else "idle".

(** [sorted(events, key=lambda e: e.time_min)]: Python's sort is
    stable, so the result is the one of a stable insertion sort.  Each
    event is inserted, from the last to the first, in front of the
    events sorted so far that are not earlier than it. *)
Fixpoint insert_by_time (e : MachineEvent) (l : list MachineEvent)
  : list MachineEvent :=
  match l with
  | [] => [e]
  | x :: rest =>
      if Qle_bool (time_min e) (time_min x) then e :: l
      else x :: insert_by_time e rest
  end.

Definition sorted_by_time (l : list MachineEvent) : list MachineEvent :=
  foldr insert_by_time [] l.

(** [sorted(s)] on a set of strings. *)
Fixpoint insert_str (s : string) (l : list string) : list string :=
  match l with
  | [] => [s]
  | x :: rest =>
      if String.leb s x then s :: l else x :: insert_str s rest
  end.

Definition sorted_strs (l : list string) : list string :=
  foldr insert_str [] l.

Record SimulationData := mkSimulationData {
  events : list MachineEvent;
  start_time : Q;
  end_time : Q;
  machines : list string;
  data_machine_states : gmap string MachineState
}.

Inductive exn := ValueError (msg : string).

(** [events[0]] and [events[-1]] of a list known to be non-empty. *)
Definition first_time (l : list MachineEvent) : Q :=
  match l with
  | e :: _ => time_min e
  | [] => 0%Q
  end.

Definition last_time (l : list MachineEvent) : Q :=
  match last l with
  | Some e => time_min e
  | None => 0%Q
  end.

(** [{event.machine for event in self.events if event.machine}] *)
Definition machine_set (evs : list MachineEvent) : gset string :=
  list_to_set (filter (λ m, truthy m = true) (machine <$> evs)).

(** [{name: MachineState(name) for name in names}] *)
Definition fresh_states (names : list string) : gmap string MachineState :=
  list_to_map ((λ name, (name, MachineState_new name)) <$> names).

(** [SimulationData.__init__] *)
Definition SimulationData_init (evs : list MachineEvent)
  : exn + SimulationData :=
  let sorted := sorted_by_time evs in
  match sorted with
  | [] => inl (ValueError "No events available in the dataset")
  | _ :: _ =>
      let ms := sorted_strs (elements (machine_set sorted)) in
      inr {| events := sorted;
             start_time := first_time sorted;
             end_time := last_time sorted;
             machines := ms;
             data_machine_states := fresh_states ms |}
  end.

(** ** controller.py *)

Record SimulationController := mkController {
  data : SimulationData;
  current_time : Q;
  pointer : nat;
  machine_states : gmap string MachineState;
  transports : gmap TransportKey Transport;
  active_transports : gmap TransportKey Transport
}.

(** [SimulationController.reset] *)
Definition reset (self : SimulationController) : SimulationController :=
  {| data := data self;
     current_time := start_time (data self);
     pointer := 0;
     machine_states := fresh_states (machines (data self));
     transports := ∅;
     active_transports := ∅ |}.

(** [SimulationController.__init__]: stores [data] and calls [reset]. *)
Definition SimulationController_init (d : SimulationData)
  : SimulationController :=
  reset {| data := d; current_time := 0%Q; pointer := 0;
           machine_states := ∅; transports := ∅;
           active_transports := ∅ |}.

(** The key of [_handle_transport]:
    [(product_id or entity_id, entity_id or product_id)]. *)
Definition transport_key (ev : MachineEvent) : TransportKey :=
  (or_str (product_id ev) (entity_id ev),
   or_str (entity_id ev) (product_id ev)).

Definition set_transports (self : SimulationController)
    (ts : gmap TransportKey Transport) : SimulationController :=
  {| data := data self; current_time := current_time self;
     pointer := pointer self; machine_states := machine_states self;
     transports := ts; active_transports := active_transports self |}.

(** [SimulationController._handle_transport].  A [Transport] object is
    always truthy, so [and transport] tests that the key is present;
    the object found is mutated in place, so the registry holds its
    updated value under the same key. *)
Definition handle_transport (ev : MachineEvent)
    (self : SimulationController) : SimulationController :=
  let key := transport_key ev in
  let transport := transports self !! key in
  if String.eqb (event ev) "TRANSPORT_START" then
    set_transports self
      (<[key := {| t_product_id := product_id ev;
                   t_entity_id := entity_id ev;
                   t_from_machine :=
                     or_opt_str (from_machine ev) (machine ev);
                   t_to_machine := to_machine ev;
                   t_start_time := time_min ev;
                   t_end_time := None |}]> (transports self))
  else
    match String.eqb (event ev) "TRANSPORT_END", transport with
    | true, Some t =>
        let to' :=
          if negb (truthy_opt (t_to_machine t))
          then or_str_opt (machine ev) (to_machine ev)
          else t_to_machine t in
        set_transports self
          (<[key := {| t_product_id := t_product_id t;
                       t_entity_id := t_entity_id t;
                       t_from_machine := t_from_machine t;
                       t_to_machine := to';
                       t_start_time := t_start_time t;
                       t_end_time := Some (time_min ev) |}]>
             (transports self))
    | _, _ =>
        match String.eqb (event ev) "TRANSPORT_CANCEL", transport with
        | true, Some _ => set_transports self (delete key (transports self))
        | _, _ => self
        end
    end.

Definition set_queue (st : MachineState) (q : Z) : MachineState :=
  {| ms_machine := ms_machine st; queue := q; status := status st;
     last_event := last_event st; transports_out := transports_out st |}.

Definition set_status (st : MachineState) (s : string) : MachineState :=
  {| ms_machine := ms_machine st; queue := queue st; status := s;
     last_event := last_event st; transports_out := transports_out st |}.

Definition set_last_event (st : MachineState) (e : string) : MachineState :=
  {| ms_machine := ms_machine st; queue := queue st; status := status st;
     last_event := Some e; transports_out := transports_out st |}.

Definition set_machine_states (self : SimulationController)
    (m : gmap string MachineState) : SimulationController :=
  {| data := data self; current_time := current_time self;
     pointer := pointer self; machine_states := m;
     transports := transports self;
     active_transports := active_transports self |}.

(** Lines 49-51 of [_apply_event]: [last_event] is set, then the
    absolute queue override is applied when [queue_length] is present. *)
Definition note_event (ev : MachineEvent) (st : MachineState)
  : MachineState :=
  let st := set_last_event st (event ev) in
  match queue_length ev with
  | Some q => set_queue st (Z.max 0 q)
  | None => st
  end.

(** [SimulationController._apply_event].  The state object is looked
    up, or created and stored, under [event.machine]; it is mutated in
    place, so [store] writes its final value into the registry. *)
Definition apply_event (ev : MachineEvent) (self : SimulationController)
  : SimulationController :=
  let state :=
    match machine_states self !! machine ev with
    | Some st => st
    | None => MachineState_new (machine ev)
    end in
  let store st :=
    set_machine_states self (<[machine ev := st]> (machine_states self)) in
  let state := note_event ev state in
  if String.eqb (event ev) "QUEUE_IN" then
    store (set_queue state (Z.max 0 (queue state + 1)))
  else if String.eqb (event ev) "QUEUE_OUT" then
    store (set_queue state (Z.max 0 (queue state - 1)))
  else if String.eqb (event ev) "PROC_START" then
    store (set_status state "processing")
  else if String.eqb (event ev) "PROC_END"
          || String.eqb (event ev) "PROC_COMPLETE" then
    store (set_status state "idle")
  else if String.eqb (event ev) "BREAKDOWN_START" then
    store (set_status state "breakdown")
  else if String.eqb (event ev) "BREAKDOWN_END"
          || String.eqb (event ev) "BREAKDOWN_CLEAR" then
    store (set_status state "idle")
  else if String.prefix "TRANSPORT_" (event ev) then
    handle_transport ev (store state)
  else store state.

(** The test of [_refresh_active_transports]:
    [end_time is not None and current_time > end_time + 0.1]. *)
Definition expired (now : Q) (t : Transport) : bool :=
  match t_end_time t with
  | Some e => if Qlt_le_dec (e + (1 # 10)) now then true else false
  | None => false
  end.

(** [replace(transport)] followed by the default of [to_machine]. *)
Definition clone_transport (t : Transport) : Transport :=
  match t_to_machine t with
  | None =>
      {| t_product_id := t_product_id t; t_entity_id := t_entity_id t;
         t_from_machine := t_from_machine t;
         t_to_machine := or_opt (t_to_machine t) (t_from_machine t);
         t_start_time := t_start_time t; t_end_time := t_end_time t |}
  | Some _ => t
  end.

(** [SimulationController._refresh_active_transports]: the snapshot is
    rebuilt from copies of the entries that are not expired, and the
    expired ones are popped from the registry. *)
Definition refresh_active_transports (self : SimulationController)
  : SimulationController :=
  let keep := filter (λ kv, expired (current_time self) kv.2 = false)
                     (transports self) in
  {| data := data self; current_time := current_time self;
     pointer := pointer self; machine_states := machine_states self;
     transports := keep;
     active_transports := clone_transport <$> keep |}.

(** The [while] loop of [advance_to]; [fuel] bounds the number of
    iterations and [length events - pointer] always suffices. *)
Fixpoint advance_loop (fuel : nat) (target : Q)
    (self : SimulationController) : SimulationController :=
  match fuel with
  | O => self
  | S fuel' =>
      match events (data self) !! pointer self with
      | Some ev =>
          if Qle_bool (time_min ev) target then
            let self := apply_event ev self in
            advance_loop fuel' target
              {| data := data self; current_time := current_time self;
                 pointer := S (pointer self);
                 machine_states := machine_states self;
                 transports := transports self;
                 active_transports := active_transports self |}
          else self
      | None => self
      end
  end.

Definition clamp_target (d : SimulationData) (target : Q) : Q :=
  py_min (py_max target (start_time d)) (end_time d).

Definition set_current_time (self : SimulationController) (t : Q)
  : SimulationController :=
  {| data := data self; current_time := t;
     pointer := pointer self; machine_states := machine_states self;
     transports := transports self;
     active_transports := active_transports self |}.

(** [SimulationController.advance_to] *)
Definition advance_to (target : Q) (self : SimulationController)
  : SimulationController :=
  let target := clamp_target (data self) target in
  let self :=
    advance_loop (length (events (data self)) - pointer self) target self in
  let self := set_current_time self target in
  refresh_active_transports self.

(** [SimulationController.seek] *)
Definition seek (target : Q) (self : SimulationController)
  : SimulationController :=
  let self :=
    if Qlt_le_dec target (current_time self) then reset self else self in
  advance_to target self.

(** [SimulationController.advance] *)
Definition advance (delta : Q) (self : SimulationController)
  : SimulationController :=
  advance_to (current_time self + delta)%Q self.

(** [SimulationController.iter_states]: the values of the registry.
    The code yields them in the order the entries were inserted; the
    list here is in the order of the keys, so it stands for the
    collection of the values, not for their order. *)
Definition iter_states (self : SimulationController) : list MachineState :=
  (map_to_list (machine_states self)).*2.

(** ** Call sequences and reachable states *)

Inductive op :=
| OpReset
| OpAdvance (delta : Q)
| OpAdvanceTo (target : Q)
| OpSeek (target : Q).

Definition run_op (o : op) (self : SimulationController)
  : SimulationController :=
  match o with
  | OpReset => reset self
  | OpAdvance delta => advance delta self
  | OpAdvanceTo target => advance_to target self
  | OpSeek target => seek target self
  end.

(** The calls of [os] in order, the head first. *)
Definition run_ops (os : list op) (self : SimulationController)
  : SimulationController :=
  foldl (λ c o, run_op o c) self os.

(** States of an engine built on [d] after any sequence of calls. *)
Inductive reachable (d : SimulationData) : SimulationController → Prop :=
| reachable_init : reachable d (SimulationController_init d)
| reachable_step c o : reachable d c → reachable d (run_op o c).

(** ** The event loop with a ghost record of the consumed positions *)

(** [advance_loop] again, returning besides the state the log indices
    whose events were applied, in the order of application. *)
Fixpoint advance_loop_log (fuel : nat) (target : Q)
    (self : SimulationController) : SimulationController * list nat :=
  match fuel with
  | O => (self, [])
  | S fuel' =>
      match events (data self) !! pointer self with
      | Some ev =>
          if Qle_bool (time_min ev) target then
            let i := pointer self in
            let self := apply_event ev self in
            let r :=
              advance_loop_log fuel' target
                {| data := data self; current_time := current_time self;
                   pointer := S (pointer self);
                   machine_states := machine_states self;
                   transports := transports self;
                   active_transports := active_transports self |} in
            (r.1, i :: r.2)
          else (self, [])
      | None => (self, [])
      end
  end.

Definition applied_advance_to (target : Q) (self : SimulationController)
  : list nat :=
  (advance_loop_log (length (events (data self)) - pointer self)
     (clamp_target (data self) target) self).2.

Definition applied_op (o : op) (self : SimulationController) : list nat :=
  match o with
  | OpReset => []
  | OpAdvance delta =>
      applied_advance_to (current_time self + delta)%Q self
  | OpAdvanceTo target => applied_advance_to target self
  | OpSeek target =>
      applied_advance_to target
        (if Qlt_le_dec target (current_time self) then reset self else self)
  end.

Fixpoint applied_ops (os : list op) (self : SimulationController)
  : list nat :=
  match os with
  | [] => []
  | o :: os' => applied_op o self ++ applied_ops os' (run_op o self)
  end.

(** ** Component views of event application

    [_apply_event] touches the machine-state registry and, through
    [_handle_transport], the transport registry; the two effects are
    stated here as functions of the registry alone (the lemmas
    [apply_event_machine_states] and [apply_event_transports] relate
    them to [apply_event]). *)

Definition update_state (ev : MachineEvent) (st : MachineState)
  : MachineState :=
  let st := note_event ev st in
  if String.eqb (event ev) "QUEUE_IN" then
    set_queue st (Z.max 0 (queue st + 1))
  else if String.eqb (event ev) "QUEUE_OUT" then
    set_queue st (Z.max 0 (queue st - 1))
  else if String.eqb (event ev) "PROC_START" then
    set_status st "processing"
  else if String.eqb (event ev) "PROC_END"
          || String.eqb (event ev) "PROC_COMPLETE" then
    set_status st "idle"
  else if String.eqb (event ev) "BREAKDOWN_START" then
    set_status st "breakdown"
  else if String.eqb (event ev) "BREAKDOWN_END"
          || String.eqb (event ev) "BREAKDOWN_CLEAR" then
    set_status st "idle"
  else st.

Definition states_step (ev : MachineEvent)
    (ms : gmap string MachineState) : gmap string MachineState :=
  <[machine ev :=
      update_state ev (default (MachineState_new (machine ev))
                               (ms !! machine ev))]> ms.

Definition ended (ev : MachineEvent) (t : Transport) : Transport :=
  {| t_product_id := t_product_id t;
     t_entity_id := t_entity_id t;
     t_from_machine := t_from_machine t;
     t_to_machine :=
       if negb (truthy_opt (t_to_machine t))
       then or_str_opt (machine ev) (to_machine ev)
       else t_to_machine t;
     t_start_time := t_start_time t;
     t_end_time := Some (time_min ev) |}.

Definition started (ev : MachineEvent) : Transport :=
  {| t_product_id := product_id ev;
     t_entity_id := entity_id ev;
     t_from_machine := or_opt_str (from_machine ev) (machine ev);
     t_to_machine := to_machine ev;
     t_start_time := time_min ev;
     t_end_time := None |}.

Definition registry_step (ev : MachineEvent)
    (ts : gmap TransportKey Transport) : gmap TransportKey Transport :=
  if String.eqb (event ev) "TRANSPORT_START" then
    <[transport_key ev := started ev]> ts
  else if String.eqb (event ev) "TRANSPORT_END" then
    match ts !! transport_key ev with
    | Some t => <[transport_key ev := ended ev t]> ts
    | None => ts
    end
  else if String.eqb (event ev) "TRANSPORT_CANCEL" then
    delete (transport_key ev) ts
  else ts.

(** The number of leading events of [l] that are due at [target]: the
    number of iterations the loop of [advance_to] makes on [l]. *)
Fixpoint count_due (target : Q) (l : list MachineEvent) : nat :=
  match l with
  | [] => 0%nat
  | ev :: rest =>
      if Qle_bool (time_min ev) target then S (count_due target rest)
      else 0%nat
  end.

(** A [TRANSPORT_START] event that creates the entry of key [k]. *)
Definition starts_key (k : TransportKey) (ev : MachineEvent) : Prop :=
  event ev = "TRANSPORT_START" ∧ transport_key ev = k.

(** ** The specification's wording of the interpolator *)

(** [clamp(x, lo, hi)] *)
Definition clamp (x lo hi : Q) : Q :=
  if Qlt_le_dec x lo then lo else if Qlt_le_dec hi x then hi else x.

(** The description of [progress] in the specification: 0 if the end
    time is unset; otherwise, with [duration = end_time - start_time],
    1 if [duration <= 0], else the quotient clamped to [0, 1]. *)
Definition progress_spec (t : Transport) (clock : Q) : Q :=
  match t_end_time t with
  | None => 0%Q
  | Some e =>
      let duration := (e - t_start_time t)%Q in
      if Qle_bool duration 0 then 1%Q
      else clamp ((clock - t_start_time t) / duration) 0 1
  end.

(** ** Invariants and auxiliary notions *)

(** The order of the sorted log. *)
Definition time_le (a b : MachineEvent) : Prop :=
  (time_min a <= time_min b)%Q.

(** Every queue of a registry is non-negative. *)
Definition queues_ok (ms : gmap string MachineState) : Prop :=
  ∀ m st, ms !! m = Some st → 0 ≤ queue st.

(** States reached by calls that never ask [advance_to] or [advance]
    to go back in time ([seek] may: it resets first). *)
Inductive forward_reachable (d : SimulationData)
  : SimulationController → Prop :=
| forward_init : forward_reachable d (SimulationController_init d)
| forward_reset c : forward_reachable d c → forward_reachable d (reset c)
| forward_seek c target :
    forward_reachable d c → forward_reachable d (seek target c)
| forward_advance_to c target :
    forward_reachable d c → (current_time c <= target)%Q →
    forward_reachable d (advance_to target c)
| forward_advance c delta :
    forward_reachable d c → (0 <= delta)%Q →
    forward_reachable d (advance delta c).

(** The registries obtained by applying the first [n] events of the
    log to the initial registries, with no refresh in between. *)
Definition replay_states (d : SimulationData) (n : nat)
  : gmap string MachineState :=
  foldl (λ ms ev, states_step ev ms) (fresh_states (machines d))
        (take n (events d)).

Definition replay_registry (d : SimulationData) (n : nat)
  : gmap TransportKey Transport :=
  foldl (λ ts ev, registry_step ev ts) ∅ (take n (events d)).

(** The engine is in step with its clock: the consumed events are not
    later than the clock, the machine states are those of replaying
    the consumed prefix, and the transport registry holds entries of
    that replay only. *)
Definition in_step (d : SimulationData) (c : SimulationController) : Prop :=
  data c = d
  ∧ (pointer c ≤ length (events d))%nat
  ∧ (start_time d <= current_time c)%Q
  ∧ (current_time c <= end_time d)%Q
  ∧ Forall (λ ev, (time_min ev <= current_time c)%Q)
           (take (pointer c) (events d))
  ∧ machine_states c = replay_states d (pointer c)
  ∧ transports c ⊆ replay_registry d (pointer c).

(** No [TRANSPORT_END] event of the log finds, in the replay of the
    events before it, a transport that has already been ended. *)
Definition ends_once (d : SimulationData) : Prop :=
  ∀ i ev t,
    events d !! i = Some ev → event ev = "TRANSPORT_END" →
    replay_registry d i !! transport_key ev = Some t →
    t_end_time t = None.

(** An entry of the engine's registry against the entry of the replay
    registry: they are the same, or the engine has evicted an entry
    that ended more than the grace period before [now]. *)
Definition same_or_evicted (now : Q) (x y : option Transport) : Prop :=
  x = y
  ∨ (x = None
     ∧ ∃ t e, y = Some t ∧ t_end_time t = Some e
              ∧ (e + (1 # 10) < now)%Q).

Definition registry_in_step (d : SimulationData)
    (c : SimulationController) : Prop :=
  ∀ k, same_or_evicted (current_time c) (transports c !! k)
                       (replay_registry d (pointer c) !! k).

(** ** Sample inputs *)

(** The container built from a log known to be non-empty. *)
Definition data_of (evs : list MachineEvent) : SimulationData :=
  match SimulationData_init evs with
  | inr d => d
  | inl _ =>
      {| events := []; start_time := 0; end_time := 0; machines := [];
         data_machine_states := ∅ |}
  end.

(** The scenario log of the specification. *)
Module Scenario.

Definition ev (t : Q) (m e p : string) (to : option string)
  : MachineEvent :=
  {| time_min := t; time_ts := EmptyString; machine := m; event := e;
     product_id := p; entity_id := EmptyString; from_machine := None;
     to_machine := to; queue_length := None |}.

Definition log : list MachineEvent :=
  [ ev 0 "M1" "PROC_START" EmptyString None;
    ev 5 "M1" "TRANSPORT_START" "P1" (Some "M2");
    ev 10 "M1" "PROC_END" EmptyString None;
    ev 15 "M2" "TRANSPORT_END" "P1" None ].

Definition sim : SimulationData := data_of log.

Definition fresh : SimulationController := SimulationController_init sim.

Definition P1 : TransportKey := ("P1", "P1").

(** The four calls of the scenario, one after the other. *)
Definition s7 : SimulationController := advance_to 7 fresh.
Definition s15 : SimulationController := advance_to 15 s7.
Definition s15_2 : SimulationController := advance_to (152 # 10) s15.
Definition s20 : SimulationController := advance_to 20 s15_2.

(** The transport of [P1] before and after its end event. *)
Definition moving : Transport :=
  {| t_product_id := "P1"; t_entity_id := EmptyString;
     t_from_machine := Some "M1"; t_to_machine := Some "M2";
     t_start_time := 5; t_end_time := None |}.

Definition arrived : Transport :=
  {| t_product_id := "P1"; t_entity_id := EmptyString;
     t_from_machine := Some "M1"; t_to_machine := Some "M2";
     t_start_time := 5; t_end_time := Some 15%Q |}.

End Scenario.

(** Further inputs. *)
Module Samples.

(** A queue event carrying a negative absolute queue length. *)
Definition queue_event (kind : string) : MachineEvent :=
  {| time_min := 1; time_ts := EmptyString; machine := "M1";
     event := kind; product_id := EmptyString; entity_id := EmptyString;
     from_machine := None; to_machine := None;
     queue_length := Some (-3) |}.

(** A transport event for a product that was never started. *)
Definition orphan (kind : string) : MachineEvent :=
  {| time_min := 1; time_ts := EmptyString; machine := "M2";
     event := kind; product_id := "P9"; entity_id := EmptyString;
     from_machine := None; to_machine := None; queue_length := None |}.

(** A log whose queue events carry a negative queue length. *)
Definition queue_log : list MachineEvent :=
  [queue_event "QUEUE_OUT"; queue_event "QUEUE_IN"].

Definition queue_sim : SimulationData := data_of queue_log.

Definition queued : SimulationController :=
  run_op (OpSeek 5) (SimulationController_init queue_sim).

(** An input that is not in order of time, with two events at the
    same time. *)
Definition shuffled_log : list MachineEvent :=
  [ Scenario.ev 5 "M2" "PROC_START" EmptyString None;
    Scenario.ev 0 "M1" "PROC_START" EmptyString None;
    Scenario.ev 5 "M1" "PROC_END" EmptyString None ].

(** A pure transport event: its machine field is empty. *)
Definition transit : MachineEvent :=
  {| time_min := 2; time_ts := EmptyString; machine := EmptyString;
     event := "TRANSPORT_START"; product_id := "P7";
     entity_id := EmptyString; from_machine := Some "M1";
     to_machine := Some "M2"; queue_length := None |}.

Definition transit_log : list MachineEvent :=
  [Scenario.ev 0 "M1" "PROC_START" EmptyString None; transit;
   Scenario.ev 4 "M2" "PROC_START" EmptyString None].

Definition transit_sim : SimulationData := data_of transit_log.

Definition transit_fresh : SimulationController :=
  SimulationController_init transit_sim.

(** A log in which the transport of P1 is ended twice. *)
Definition dup_log : list MachineEvent :=
  [ Scenario.ev 0 "M1" "TRANSPORT_START" "P1" (Some "M2");
    Scenario.ev (1 # 2) "M2" "TRANSPORT_END" "P1" None;
    Scenario.ev (295 # 100) "M2" "TRANSPORT_END" "P1" None;
    Scenario.ev 5 "M1" "PROC_START" EmptyString None ].

Definition dup_sim : SimulationData := data_of dup_log.

Definition dup_fresh : SimulationController :=
  SimulationController_init dup_sim.

(** The engine inside [advance_to 1], just before the refresh. *)
Definition dup_before_refresh : SimulationController :=
  set_current_time (advance_loop 4 1 dup_fresh) 1.

Definition dup_ended : Transport :=
  {| t_product_id := "P1"; t_entity_id := EmptyString;
     t_from_machine := Some "M1"; t_to_machine := Some "M2";
     t_start_time := 0; t_end_time := Some (1 # 2) |}.

End Samples.

(** ** Proof automation *)

(** Case analysis on the event name tested by the dispatch chain. *)
Ltac case_names e :=
  repeat match goal with
         | |- context [String.eqb e ?s] =>
             destruct (String.eqb_spec e s) as [->|?]; simpl
         end.

(** ** Further notions *)

(** The order of [sorted] on strings. *)
Definition str_le (a b : string) : Prop := String.leb a b = true.

(** The status values the engine assigns. *)
Definition status_known (s : string) : Prop :=
  s = "idle" ∨ s = "processing" ∨ s = "breakdown".

(** What every reachable state satisfies: the machine states are the
    replay of the consumed prefix, the registry holds entries of that
    replay only, the snapshot is made of the copies of the registry's
    entries, and none of them is expired at the current time. *)
Definition sound (d : SimulationData) (c : SimulationController) : Prop :=
  (pointer c ≤ length (events d))%nat
  ∧ machine_states c = replay_states d (pointer c)
  ∧ transports c ⊆ replay_registry d (pointer c)
  ∧ active_transports c = clone_transport <$> transports c
  ∧ ∀ k t, transports c !! k = Some t →
           expired (current_time c) t = false.

(** The key under which a transport with these ids is filed. *)
Definition key_of (t : Transport) : TransportKey :=
  (or_str (t_product_id t) (t_entity_id t),
   or_str (t_entity_id t) (t_product_id t)).

(** The events of machine [m] among the first [n] of the log. *)
Definition events_of (d : SimulationData) (m : string) (n : nat)
  : list MachineEvent :=
  filter (λ ev, machine ev = m) (take n (events d)).

(** A start and an end event of the product P5, with the destination
    given by the end only. *)
Module Pairing.

Definition leave : MachineEvent :=
  {| time_min := 2; time_ts := EmptyString; machine := "M1";
     event := "TRANSPORT_START"; product_id := "P5";
     entity_id := EmptyString; from_machine := None; to_machine := None;
     queue_length := None |}.

Definition arrive : MachineEvent :=
  {| time_min := 6; time_ts := EmptyString; machine := "M3";
     event := "TRANSPORT_END"; product_id := "P5";
     entity_id := EmptyString; from_machine := None; to_machine := None;
     queue_length := None |}.

Definition drop_it : MachineEvent :=
  {| time_min := 4; time_ts := EmptyString; machine := "M1";
     event := "TRANSPORT_CANCEL"; product_id := "P5";
     entity_id := EmptyString; from_machine := None; to_machine := None;
     queue_length := None |}.

End Pairing.

(** ** view.py

    The graphics items are modelled by the values the code gives
    them: a machine item by its label, position, brush colour, queue
    text and indicator colour; a transport token by its position; the
    scene by its two item dictionaries and the machine positions.
    Coordinates ([float] in Qt) are rationals. *)

Module View.

Record QPointF := mkPoint { pt_x : Q; pt_y : Q }.

(** [QPointF()] *)
Definition origin : QPointF := {| pt_x := 0; pt_y := 0 |}.

Definition COLORS : gmap string string :=
  list_to_map
    [ ("idle", "#264653"); ("queue", "#f4a261");
      ("processing", "#2a9d8f"); ("breakdown", "#e76f51") ].

(** [COLORS["idle"]] *)
Definition idle_colour : string := default EmptyString (COLORS !! "idle").

(** [MACHINE_SIZE = QRectF(0, 0, 160, 80)] *)
Definition MACHINE_width : Q := 160.
Definition MACHINE_height : Q := 80.

Record MachineGraphicsItem := mkMachineItem {
  mg_label : string;
  mg_pos : QPointF;
  mg_brush : string;
  mg_queue_text : string;
  mg_indicator : string
}.

(** [MachineGraphicsItem.update_state]; the text is
    [f"Queue: {state.queue}"]. *)
Definition update_state (state : MachineState) (self : MachineGraphicsItem)
  : MachineGraphicsItem :=
  let brush := default idle_colour (COLORS !! color_key state) in
  let indicator_color := default idle_colour (COLORS !! color_key state) in
  {| mg_label := mg_label self; mg_pos := mg_pos self;
     mg_brush := brush;
     mg_queue_text := "Queue: " +:+ pretty (queue state);
     mg_indicator := indicator_color |}.

(** [MachineGraphicsItem.__init__]: the item is placed, labelled, and
    shown in the default state of its machine. *)
Definition MachineGraphicsItem_init (machine : string) (position : QPointF)
  : MachineGraphicsItem :=
  update_state (MachineState_new machine)
    {| mg_label := machine; mg_pos := position; mg_brush := EmptyString;
       mg_queue_text := "Queue: 0"; mg_indicator := EmptyString |}.

(** A [TransportItem], by its position; a new item sits at the
    origin. *)
Record TransportItem := mkToken { tk_pos : QPointF }.

Definition TransportItem_init : TransportItem := {| tk_pos := origin |}.

(** [positions.get(key)] for a key that may be [None]. *)
Definition get_position (positions : gmap string QPointF)
    (key : option string) : option QPointF :=
  match key with
  | Some m => positions !! m
  | None => None
  end.

(** [TransportItem.update_progress] *)
Definition update_progress (transport : Transport)
    (positions : gmap string QPointF) (clock : Q) (self : TransportItem)
  : TransportItem :=
  let start := get_position positions (t_from_machine transport) in
  let end_ := get_position positions (t_to_machine transport) in
  let start :=
    match start with
    | None =>
        if truthy_opt (t_from_machine transport)
        then Some (default origin
                     (get_position positions (t_from_machine transport)))
        else None
    | Some _ => start
    end in
  let end_ :=
    match end_ with
    | None =>
        Some (default origin
                (get_position positions
                   (or_opt (t_to_machine transport)
                           (t_from_machine transport))))
    | Some _ => end_
    end in
  let start := default origin start in
  let end_ := default start end_ in
  let progress := progress transport clock in
  let pos :=
    {| pt_x := pt_x start + (pt_x end_ - pt_x start) * progress;
       pt_y := pt_y start + (pt_y end_ - pt_y start) * progress |} in
  {| tk_pos := {| pt_x := pt_x pos + MACHINE_width / 2;
                  pt_y := pt_y pos + MACHINE_height / 2 |} |}.

(** [int(ceil(sqrt(n)))]: the least [r] with [n <= r * r].  The float
    square root is exact enough for this on every length below
    [2^52]. *)
Definition ceil_sqrt (n : nat) : nat :=
  let r := Nat.sqrt n in
  if (r * r =? n)%nat then r else S r.

(** [SimulationScene._build_layout] *)
Definition build_layout (machines : list string) : gmap string QPointF :=
  match machines with
  | [] => ∅
  | _ :: _ =>
      let columns := Nat.max 1 (ceil_sqrt (length machines)) in
      let spacing_x := (MACHINE_width + 80)%Q in
      let spacing_y := (MACHINE_height + 80)%Q in
      foldl
        (λ positions im,
           let index : nat := im.1 in
           let row := (index / columns)%nat in
           let column := (index mod columns)%nat in
           <[im.2 := {| pt_x := inject_Z (Z.of_nat column) * spacing_x;
                        pt_y := inject_Z (Z.of_nat row) * spacing_y |}]>
             positions)
        ∅ (imap pair (sorted_strs machines))
  end.

Record SimulationScene := mkScene {
  machine_items : gmap string MachineGraphicsItem;
  transport_items : gmap TransportKey TransportItem;
  machine_positions : gmap string QPointF
}.

(** [SimulationScene.__init__] *)
Definition SimulationScene_init (data : SimulationData) : SimulationScene :=
  let positions := build_layout (machines data) in
  {| machine_items :=
       map_imap (λ machine position,
                   Some (MachineGraphicsItem_init machine position))
                positions;
     transport_items := ∅;
     machine_positions := positions |}.

(** [SimulationScene.sync_states] *)
Definition sync_states (states : gmap string MachineState)
    (transports : gmap TransportKey Transport) (clock : Q)
    (self : SimulationScene) : SimulationScene :=
  let items :=
    foldl (λ items ms,
             match items !! ms.1 with
             | Some item => <[ms.1 := update_state ms.2 item]> items
             | None => items
             end)
          (machine_items self) (map_to_list states) in
  let existing_keys : gset TransportKey := dom (transport_items self) in
  let loop :=
    foldl (λ (acc : gmap TransportKey TransportItem * gset TransportKey) kt,
             let token :=
               match acc.1 !! kt.1 with
               | Some token => token
               | None => TransportItem_init
               end in
             (<[kt.1 := update_progress kt.2 (machine_positions self)
                          clock token]> acc.1,
              {[kt.1]} ∪ acc.2))
          (transport_items self, ∅) (map_to_list transports) in
  let tokens :=
    foldl (λ tokens key, delete key tokens) loop.1
          (elements (existing_keys ∖ loop.2)) in
  {| machine_items := items; transport_items := tokens;
     machine_positions := machine_positions self |}.

End View.

(** ** main.py: the clock label and the timer tick *)

Module Main.

(** [int(x)] on a number: truncation toward zero. *)
Definition int_of (x : Q) : Z := Z.quot (Qnum x) (Zpos (Qden x)).

(** [f"{n:02}"] for a non-negative [n]. *)
Definition pad2 (n : Z) : string :=
  if n <? 10 then "0" +:+ pretty n else pretty n.

(** [format_clock] *)
Definition format_clock (minutes : Q) : string :=
  let total_seconds := Z.max 0 (int_of (minutes * 60)) in
  let hours := total_seconds / 3600 in
  let mins := (total_seconds mod 3600) / 60 in
  let secs := total_seconds mod 60 in
  pad2 hours +:+ ":" +:+ pad2 mins +:+ ":" +:+ pad2 secs.

(** The part of the window that [_tick] drives: the controller and the
    playing flag; the widgets it refreshes afterwards are left out. *)
Record Player := mkPlayer {
  controller : SimulationController;
  playing : bool
}.

(** [SimulationWindow.toggle_playback], on the flag. *)
Definition toggle_playback (self : Player) : Player :=
  {| controller := controller self; playing := negb (playing self) |}.

(** [SimulationWindow._tick] with its [delta_minutes]. *)
Definition tick (delta_minutes : Q) (self : Player) : Player :=
  let c := advance delta_minutes (controller self) in
  let self := {| controller := c; playing := playing self |} in
  if Qle_bool (end_time (data c)) (current_time c) then
    toggle_playback
      {| controller := seek (end_time (data c)) c;
         playing := playing self |}
  else self.

End Main.

(** Queue events that carry no absolute queue length. *)
Module Queueing.

Definition arrival : MachineEvent :=
  {| time_min := 3; time_ts := EmptyString; machine := "M1";
     event := "QUEUE_IN"; product_id := "P2"; entity_id := EmptyString;
     from_machine := None; to_machine := None; queue_length := None |}.

Definition departure : MachineEvent :=
  {| time_min := 4; time_ts := EmptyString; machine := "M1";
     event := "QUEUE_OUT"; product_id := "P2"; entity_id := EmptyString;
     from_machine := None; to_machine := None; queue_length := None |}.

End Queueing.

(** * Properties *)

(** ** The model on small inputs *)

Example sort_is_stable :
  machine <$> sorted_by_time
    [ Scenario.ev 2 "a" "QUEUE_IN" EmptyString None;
      Scenario.ev 1 "b" "QUEUE_IN" EmptyString None;
      Scenario.ev 2 "c" "QUEUE_IN" EmptyString None;
      Scenario.ev 1 "d" "QUEUE_IN" EmptyString None ]
  = ["b"; "d"; "a"; "c"].
Proof. reflexivity. Qed.

Example scenario_data :
  events Scenario.sim = Scenario.log
  ∧ start_time Scenario.sim = 0%Q
  ∧ end_time Scenario.sim = 15%Q
  ∧ machines Scenario.sim = ["M1"; "M2"].
Proof. vm_compute. repeat split. Qed.

Example key_from_product_only :
  transport_key (Scenario.ev 5 "M1" "TRANSPORT_START" "P1" None)
  = ("P1", "P1").
Proof. reflexivity. Qed.

Example clamp_target_scenario :
  clamp_target Scenario.sim 20 = 15%Q
  ∧ clamp_target Scenario.sim (-1) = 0%Q
  ∧ clamp_target Scenario.sim 7 = 7%Q.
Proof. vm_compute. repeat split. Qed.

Example progress_halfway : (progress Scenario.arrived 10 == 1 # 2)%Q.
Proof. reflexivity. Qed.

Example progress_before_start : progress Scenario.arrived 2 = 0%Q.
Proof. reflexivity. Qed.

Example scenario_first_call :
  pointer Scenario.s7 = 2%nat
  ∧ applied_advance_to 7 Scenario.fresh = [0; 1]%nat
  ∧ current_time Scenario.s7 = 7%Q.
Proof. vm_compute. repeat split. Qed.

Example negative_override_then_out :
  queue (update_state (Samples.queue_event "QUEUE_OUT")
           (MachineState_new "M1")) = 0
  ∧ queue (update_state (Samples.queue_event "QUEUE_IN")
             (MachineState_new "M1")) = 1.
Proof. split; reflexivity. Qed.

(** ** Comparisons on times *)

Lemma Qle_bool_true (a b : Q) : Qle_bool a b = true ↔ (a <= b)%Q.
Proof. apply Qle_bool_iff. Qed.

Lemma Qle_bool_false (a b : Q) : Qle_bool a b = false ↔ (b < a)%Q.
Proof.
  rewrite <- not_true_iff_false, Qle_bool_iff. split.
  - apply Qnot_le_lt.
  - apply Qlt_not_le.
Qed.

(** ** The interpolator *)

Lemma clamp_max_min (x : Q) : (py_max 0 (py_min 1 x) == clamp x 0 1)%Q.
Proof.
  unfold py_max, py_min, clamp.
  destruct (Qlt_le_dec x 1), (Qlt_le_dec x 0);
    repeat match goal with
           | |- context [Qlt_le_dec ?a ?b] => destruct (Qlt_le_dec a b)
           end; lra.
Qed.

Lemma clamp_unit (x : Q) : (0 <= clamp x 0 1)%Q ∧ (clamp x 0 1 <= 1)%Q.
Proof.
  unfold clamp. destruct (Qlt_le_dec x 0); [lra|].
  destruct (Qlt_le_dec 1 x); lra.
Qed.

(** C5.  [Transport.progress] agrees with the specification's
    description (0 when [end_time] is unset; otherwise 1 when
    [end_time - start_time <= 0], and the quotient
    [(clock - start_time) / duration] clamped to [0, 1] when the
    duration is positive), and in every case its value lies in
    [0, 1]. *)
Theorem progress_meets_spec (t : Transport) (clock : Q) :
  (progress t clock == progress_spec t clock)%Q
  ∧ (0 <= progress t clock)%Q ∧ (progress t clock <= 1)%Q.
Proof.
  assert (Heq : (progress t clock == progress_spec t clock)%Q).
  { unfold progress, progress_spec. destruct (t_end_time t) as [e|];
      [|reflexivity]. cbv zeta.
    destruct (Qle_bool (e - t_start_time t) 0); [reflexivity|].
    apply clamp_max_min. }
  split; [exact Heq|]. rewrite Heq. unfold progress_spec.
  destruct (t_end_time t) as [e|]; [|lra]. cbv zeta.
  destruct (Qle_bool (e - t_start_time t) 0); [lra|apply clamp_unit].
Qed.

(** ** Event application, component by component *)

Lemma handle_transport_frame (ev : MachineEvent) (c : SimulationController) :
  data (handle_transport ev c) = data c
  ∧ current_time (handle_transport ev c) = current_time c
  ∧ pointer (handle_transport ev c) = pointer c
  ∧ machine_states (handle_transport ev c) = machine_states c
  ∧ active_transports (handle_transport ev c) = active_transports c.
Proof.
  unfold handle_transport.
  destruct (String.eqb (event ev) "TRANSPORT_START"); [done|].
  destruct (String.eqb (event ev) "TRANSPORT_END"),
    (String.eqb (event ev) "TRANSPORT_CANCEL"),
    (transports c !! transport_key ev); done.
Qed.

Lemma handle_transport_transports (ev : MachineEvent)
    (c : SimulationController) :
  transports (handle_transport ev c) = registry_step ev (transports c).
Proof.
  unfold handle_transport, registry_step.
  destruct (String.eqb_spec (event ev) "TRANSPORT_START") as [He|He];
    [done|].
  destruct (String.eqb_spec (event ev) "TRANSPORT_END") as [He'|He'].
  - rewrite He'. simpl.
    destruct (transports c !! transport_key ev); done.
  - destruct (String.eqb (event ev) "TRANSPORT_CANCEL") eqn:Hc; [|done].
    destruct (transports c !! transport_key ev) eqn:Hk; [done|].
    simpl. symmetry. by apply delete_id.
Qed.

Lemma apply_event_transports (ev : MachineEvent) (c : SimulationController) :
  transports (apply_event ev c) = registry_step ev (transports c).
Proof.
  unfold apply_event.
  remember (event ev) as e eqn:He. case_names e.
  all: try (unfold registry_step; rewrite <- He; simpl; reflexivity).
  destruct (String.prefix "TRANSPORT_" e) eqn:Hp.
  - by rewrite handle_transport_transports.
  - unfold registry_step. rewrite <- He. case_names e; try discriminate Hp.
    reflexivity.
Qed.

Lemma apply_event_machine_states (ev : MachineEvent)
    (c : SimulationController) :
  machine_states (apply_event ev c) = states_step ev (machine_states c).
Proof.
  unfold apply_event, states_step, update_state.
  remember (event ev) as e eqn:He.
  destruct (machine_states c !! machine ev) as [st|]; simpl;
    case_names e; try reflexivity.
  all: destruct (String.prefix "TRANSPORT_" e); try reflexivity.
  all: match goal with
       | |- context [handle_transport ?e' ?c'] =>
           by destruct (handle_transport_frame e' c') as (_ & _ & _ & -> & _)
       end.
Qed.

Lemma apply_event_frame (ev : MachineEvent) (c : SimulationController) :
  data (apply_event ev c) = data c
  ∧ current_time (apply_event ev c) = current_time c
  ∧ pointer (apply_event ev c) = pointer c
  ∧ active_transports (apply_event ev c) = active_transports c.
Proof.
  unfold apply_event.
  remember (event ev) as e eqn:He. case_names e; try done.
  destruct (String.prefix "TRANSPORT_" e); [|done].
  match goal with
  | |- context [handle_transport ev ?c'] =>
      destruct (handle_transport_frame ev c') as (-> & -> & -> & _ & ->)
  end. done.
Qed.

(** ** The loop of [advance_to] *)

Lemma advance_loop_log_fst (fuel : nat) (target : Q)
    (c : SimulationController) :
  (advance_loop_log fuel target c).1 = advance_loop fuel target c.
Proof.
  revert c. induction fuel as [|fuel IH]; intros c; simpl; [done|].
  destruct (events (data c) !! pointer c) as [ev|]; [|done].
  destruct (Qle_bool (time_min ev) target); [|done]. simpl. apply IH.
Qed.

Lemma advance_loop_log_spec (fuel : nat) (target : Q)
    (c : SimulationController) :
  (length (events (data c)) - pointer c ≤ fuel)%nat →
  let rest := drop (pointer c) (events (data c)) in
  let n := count_due target rest in
  let r := advance_loop_log fuel target c in
  data r.1 = data c
  ∧ current_time r.1 = current_time c
  ∧ active_transports r.1 = active_transports c
  ∧ pointer r.1 = (pointer c + n)%nat
  ∧ machine_states r.1
    = foldl (λ ms ev, states_step ev ms) (machine_states c) (take n rest)
  ∧ transports r.1
    = foldl (λ ts ev, registry_step ev ts) (transports c) (take n rest)
  ∧ r.2 = seq (pointer c) n.
Proof.
  revert c. induction fuel as [|fuel IH]; intros c Hfuel; simpl.
  - assert (Hnil : drop (pointer c) (events (data c)) = []).
    { apply drop_ge. lia. }
    rewrite Hnil. simpl. rewrite Nat.add_0_r. done.
  - destruct (events (data c) !! pointer c) as [ev|] eqn:Hev.
    + rewrite (drop_S _ _ _ Hev). simpl.
      destruct (Qle_bool (time_min ev) target) eqn:Hdue; simpl.
      * destruct (apply_event_frame ev c) as (Hd & Ht & Hp & Ha).
        pose proof (apply_event_machine_states ev c) as Hms.
        pose proof (apply_event_transports ev c) as Hts.
        rewrite Hd, Hp, Ht, Ha, Hms, Hts.
        match goal with
        | |- context [advance_loop_log fuel target ?c'] =>
            specialize (IH c'); simpl in IH
        end.
        apply lookup_lt_Some in Hev.
        destruct IH as (-> & -> & -> & -> & -> & -> & ->); [lia|].
        repeat split; done || lia.
      * rewrite Nat.add_0_r. done.
    + apply lookup_ge_None in Hev. rewrite (drop_ge _ _ Hev). simpl.
      rewrite Nat.add_0_r. done.
Qed.

(** [advance_to] field by field: the loop consumes exactly the due
    events that follow the pointer (it ends because its test fails,
    never for want of fuel), then the clock is set and the snapshot
    refreshed. *)
Lemma advance_to_spec (target : Q) (c : SimulationController) :
  let t := clamp_target (data c) target in
  let rest := drop (pointer c) (events (data c)) in
  let n := count_due t rest in
  let ts := foldl (λ ts ev, registry_step ev ts) (transports c)
                  (take n rest) in
  let keep := filter (λ kv, expired t kv.2 = false) ts in
  let c' := advance_to target c in
  data c' = data c
  ∧ current_time c' = t
  ∧ pointer c' = (pointer c + n)%nat
  ∧ machine_states c'
    = foldl (λ ms ev, states_step ev ms) (machine_states c) (take n rest)
  ∧ transports c' = keep
  ∧ active_transports c' = clone_transport <$> keep
  ∧ applied_advance_to target c = seq (pointer c) n.
Proof.
  cbv zeta. unfold advance_to, applied_advance_to, refresh_active_transports.
  simpl.
  destruct (advance_loop_log_spec
              (length (events (data c)) - pointer c)
              (clamp_target (data c) target) c) as
    (Hd & Ht & Ha & Hp & Hms & Hts & Hlog); [lia|].
  rewrite advance_loop_log_fst in Hd, Ht, Ha, Hp, Hms, Hts.
  rewrite Hd, Hp, Hms, Hts, Hlog. done.
Qed.

(** ** The event log container *)

Lemma insert_by_time_perm (e : MachineEvent) (l : list MachineEvent) :
  insert_by_time e l ≡ₚ e :: l.
Proof.
  induction l as [|x l IH]; simpl; [done|].
  destruct (Qle_bool (time_min e) (time_min x)); [done|].
  rewrite IH. apply Permutation_swap.
Qed.

Lemma sorted_by_time_perm (l : list MachineEvent) : sorted_by_time l ≡ₚ l.
Proof.
  induction l as [|x l IH]; simpl; [done|].
  by rewrite insert_by_time_perm, IH.
Qed.

Lemma insert_by_time_sorted (e : MachineEvent) (l : list MachineEvent) :
  StronglySorted time_le l → StronglySorted time_le (insert_by_time e l).
Proof.
  induction 1 as [|x l Hl IH Hx]; simpl.
  - repeat constructor.
  - destruct (Qle_bool (time_min e) (time_min x)) eqn:Hle.
    + apply Qle_bool_true in Hle. constructor; [by constructor|].
      constructor; [done|].
      eapply Forall_impl; [exact Hx|]. unfold time_le. intros y Hy. lra.
    + apply Qle_bool_false in Hle. constructor; [done|].
      rewrite insert_by_time_perm. constructor; [|done].
      unfold time_le. lra.
Qed.

Lemma sorted_by_time_sorted (l : list MachineEvent) :
  StronglySorted time_le (sorted_by_time l).
Proof.
  induction l as [|x l IH]; simpl; [constructor|].
  by apply insert_by_time_sorted.
Qed.

(** Stability: events of equal time keep their relative order. *)
Lemma insert_by_time_stable (t : Q) (e : MachineEvent)
    (l : list MachineEvent) :
  StronglySorted time_le l →
  filter (λ x, Qeq_bool (time_min x) t = true) (insert_by_time e l)
  = filter (λ x, Qeq_bool (time_min x) t = true) (e :: l).
Proof.
  induction 1 as [|x l Hl IH Hx]; simpl; [done|].
  destruct (Qle_bool (time_min e) (time_min x)) eqn:Hle; [done|].
  apply Qle_bool_false in Hle.
  rewrite !filter_cons. rewrite !filter_cons in IH. rewrite IH.
  destruct (decide (Qeq_bool (time_min x) t = true)) as [Hxt|Hxt],
    (decide (Qeq_bool (time_min e) t = true)) as [Het|Het]; try done.
  apply Qeq_bool_iff in Hxt, Het. lra.
Qed.

Lemma sorted_by_time_stable (t : Q) (l : list MachineEvent) :
  filter (λ x, Qeq_bool (time_min x) t = true) (sorted_by_time l)
  = filter (λ x, Qeq_bool (time_min x) t = true) l.
Proof.
  induction l as [|x l IH]; simpl; [done|].
  rewrite insert_by_time_stable by apply sorted_by_time_sorted.
  by rewrite !filter_cons, IH.
Qed.

Lemma sorted_by_time_nil (l : list MachineEvent) :
  sorted_by_time l = [] ↔ l = [].
Proof.
  split; [|by intros ->]. intros H.
  apply Permutation_nil_r. by rewrite <- H, sorted_by_time_perm.
Qed.

(** C8.  Building [SimulationData] from zero events raises (the
    [ValueError] that plays the role of the spec's [EmptyLogError]);
    from at least one event it succeeds.  The log it keeps is the
    input sorted by time: it has the same events, in non-decreasing
    order of time, events of equal time in the order of the input.
    [start_time] is the time of the first event of that log and
    [end_time] the time of its last. *)
Theorem SimulationData_init_outcome :
  SimulationData_init []
  = inl (ValueError "No events available in the dataset")
  ∧ ∀ evs : list MachineEvent, evs ≠ [] →
      ∃ d first rest final,
        SimulationData_init evs = inr d
        ∧ events d = sorted_by_time evs
        ∧ events d ≡ₚ evs
        ∧ StronglySorted time_le (events d)
        ∧ (∀ t, filter (λ e, Qeq_bool (time_min e) t = true) (events d)
                = filter (λ e, Qeq_bool (time_min e) t = true) evs)
        ∧ events d = first :: rest
        ∧ last (events d) = Some final
        ∧ start_time d = time_min first
        ∧ end_time d = time_min final.
Proof.
  split; [reflexivity|]. intros evs Hne. unfold SimulationData_init.
  pose proof (sorted_by_time_perm evs) as Hp.
  pose proof (sorted_by_time_sorted evs) as Hs.
  pose proof (λ t, sorted_by_time_stable t evs) as Hst.
  destruct (sorted_by_time evs) as [|first rest] eqn:He.
  - destruct Hne. by apply sorted_by_time_nil.
  - destruct (last (first :: rest)) as [final|] eqn:Hl;
      [|by apply last_None in Hl].
    eexists _, first, rest, final. split; [reflexivity|].
    cbn [events start_time end_time first_time]. unfold last_time.
    rewrite Hl.
    exact (conj eq_refl (conj Hp (conj Hs (conj Hst
             (conj eq_refl (conj eq_refl (conj eq_refl eq_refl))))))).
Qed.

Lemma SimulationData_init_outcome_witness :
  ∃ d,
    SimulationData_init Samples.shuffled_log = inr d
    ∧ events d ≡ₚ Samples.shuffled_log
    ∧ StronglySorted time_le (events d)
    ∧ filter (λ e, Qeq_bool (time_min e) 5 = true) (events d)
      = [ Scenario.ev 5 "M2" "PROC_START" EmptyString None;
          Scenario.ev 5 "M1" "PROC_END" EmptyString None ]
    ∧ start_time d = 0%Q
    ∧ end_time d = 5%Q.
Proof.
  destruct (proj2 SimulationData_init_outcome Samples.shuffled_log)
    as (d & first & rest & final & Hd & He & Hp & Hs & Hst & Hf & Hl
        & Hstart & Hend); [discriminate|].
  exists d. split; [exact Hd|]. split; [exact Hp|]. split; [exact Hs|].
  rewrite Hstart, Hend, (Hst 5%Q). rewrite He in Hf, Hl.
  vm_compute in Hf, Hl. injection Hf as <- _. injection Hl as <-.
  split; [|split]; reflexivity.
Defined.

(** ** Single events *)

(** C4.  An event that carries [queue_length = q] and is named
    [QUEUE_IN] (or [QUEUE_OUT]) first overrides the queue with
    [max 0 q] and then adjusts that value by one: the entry of its
    machine ends with queue [max 0 (max 0 q + 1)] (respectively
    [max 0 (max 0 q - 1)]). *)
Theorem queue_override_then_adjust (ev : MachineEvent)
    (c : SimulationController) (q : Z) :
  queue_length ev = Some q →
  (event ev = "QUEUE_IN" →
     ∃ st, machine_states (apply_event ev c) !! machine ev = Some st
           ∧ queue st = Z.max 0 (Z.max 0 q + 1))
  ∧ (event ev = "QUEUE_OUT" →
     ∃ st, machine_states (apply_event ev c) !! machine ev = Some st
           ∧ queue st = Z.max 0 (Z.max 0 q - 1)).
Proof.
  intros Hq. rewrite apply_event_machine_states. unfold states_step.
  rewrite lookup_insert_eq. unfold update_state, note_event. rewrite Hq.
  split; intros ->; simpl; eexists; (split; [reflexivity|]); done.
Qed.

Lemma queue_override_then_adjust_witness :
  (∃ st,
     machine_states
       (apply_event (Samples.queue_event "QUEUE_IN") Scenario.fresh)
       !! "M1" = Some st
     ∧ queue st = 1)
  ∧ (∃ st,
       machine_states
         (apply_event (Samples.queue_event "QUEUE_OUT") Scenario.fresh)
         !! "M1" = Some st
       ∧ queue st = 0).
Proof.
  split.
  - exact (proj1 (queue_override_then_adjust (Samples.queue_event "QUEUE_IN")
                    Scenario.fresh (-3) eq_refl) eq_refl).
  - exact (proj2 (queue_override_then_adjust (Samples.queue_event "QUEUE_OUT")
                    Scenario.fresh (-3) eq_refl) eq_refl).
Defined.

(** C9.  A [TRANSPORT_END] or [TRANSPORT_CANCEL] event whose identity
    key has no entry in the transport registry is dropped silently:
    [_handle_transport] returns the engine unchanged (the model is
    total, nothing is raised) and the registry after [_apply_event] is
    the registry before. *)
Theorem unmatched_end_or_cancel_is_noop (ev : MachineEvent)
    (c : SimulationController) :
  transports c !! transport_key ev = None →
  event ev = "TRANSPORT_END" ∨ event ev = "TRANSPORT_CANCEL" →
  handle_transport ev c = c
  ∧ transports (apply_event ev c) = transports c.
Proof.
  intros Hk He. split.
  - unfold handle_transport. rewrite Hk.
    destruct He as [-> | ->]; reflexivity.
  - rewrite apply_event_transports. unfold registry_step. rewrite Hk.
    destruct He as [-> | ->]; simpl; [done|]. by apply delete_id.
Qed.

Lemma unmatched_end_or_cancel_is_noop_witness :
  (handle_transport (Samples.orphan "TRANSPORT_END") Scenario.fresh
   = Scenario.fresh
   ∧ transports (apply_event (Samples.orphan "TRANSPORT_END") Scenario.fresh)
     = transports Scenario.fresh)
  ∧ (handle_transport (Samples.orphan "TRANSPORT_CANCEL") Scenario.fresh
     = Scenario.fresh
   ∧ transports
       (apply_event (Samples.orphan "TRANSPORT_CANCEL") Scenario.fresh)
     = transports Scenario.fresh).
Proof.
  split.
  - apply (unmatched_end_or_cancel_is_noop (Samples.orphan "TRANSPORT_END")
             Scenario.fresh); [reflexivity | left; reflexivity].
  - apply (unmatched_end_or_cancel_is_noop (Samples.orphan "TRANSPORT_CANCEL")
             Scenario.fresh); [reflexivity | right; reflexivity].
Defined.

(** ** The scenario of the specification *)

(** C1 (amended).  On the scenario log, replayed from a new engine:
    after [advance_to 7] machine M1 is processing and the only tracked
    transport is the one of P1, with no end time and progress 0; after
    [advance_to 15] its end time is 15 and its progress 1; after
    [advance_to 15.2] and also after [advance_to 20] the clock is
    clamped to the end of the log, 15, so the transport is within its
    grace period and still in the snapshot. *)
Theorem scenario_replay :
  (status <$> machine_states Scenario.s7 !! "M1" = Some "processing"
   ∧ map_to_list (active_transports Scenario.s7)
     = [(Scenario.P1, Scenario.moving)]
   ∧ progress Scenario.moving (current_time Scenario.s7) = 0%Q)
  ∧ (current_time Scenario.s15 = 15%Q
     ∧ active_transports Scenario.s15 !! Scenario.P1
       = Some Scenario.arrived
     ∧ progress Scenario.arrived (current_time Scenario.s15) = 1%Q)
  ∧ (current_time Scenario.s15_2 = 15%Q
     ∧ active_transports Scenario.s15_2 !! Scenario.P1
       = Some Scenario.arrived)
  ∧ (current_time Scenario.s20 = 15%Q
     ∧ active_transports Scenario.s20 !! Scenario.P1
       = Some Scenario.arrived
     ∧ active_transports (advance_to 20 Scenario.fresh) !! Scenario.P1
       = Some Scenario.arrived).
Proof. vm_compute. repeat split. Qed.

(** C1 as stated fails in its last part: after [advance_to 20] the
    transport of P1 is not absent from the snapshot, whether the call
    follows the three others or is made on a new engine. *)
Lemma scenario_transport_survives :
  ¬ (active_transports Scenario.s20 !! Scenario.P1 = None)
  ∧ ¬ (active_transports (advance_to 20 Scenario.fresh) !! Scenario.P1
       = None).
Proof. split; vm_compute; discriminate. Qed.

(** ** Reachable states *)

Lemma reset_init (c : SimulationController) :
  reset c = SimulationController_init (data c).
Proof. reflexivity. Qed.

Lemma seek_cases (target : Q) (c : SimulationController) :
  seek target c = advance_to target c
  ∨ seek target c = advance_to target (SimulationController_init (data c)).
Proof.
  unfold seek. destruct (Qlt_le_dec target (current_time c)); auto.
Qed.

(** Induction over the reachable states: it is enough to consider the
    initial state and one [advance_to] call, since [reset] returns to
    the initial state and [seek] and [advance] end in [advance_to]. *)
Lemma reachable_inv (d : SimulationData) (P : SimulationController → Prop) :
  P (SimulationController_init d) →
  (∀ c target, data c = d → P c → P (advance_to target c)) →
  ∀ c, reachable d c → data c = d ∧ P c.
Proof.
  intros Hinit Hadv c Hc. induction Hc as [|c o Hc [Hd IH]]; [done|].
  assert (Hstep : ∀ target, data (advance_to target c) = d
                            ∧ P (advance_to target c)).
  { intros target. split; [|by apply Hadv].
    by destruct (advance_to_spec target c) as (-> & _). }
  destruct o as [|delta|target|target]; unfold run_op, advance.
  - by rewrite reset_init, Hd.
  - apply Hstep.
  - apply Hstep.
  - destruct (seek_cases target c) as [-> | ->]; [apply Hstep|].
    rewrite Hd. split; [|by apply Hadv].
    by destruct (advance_to_spec target (SimulationController_init d))
      as (-> & _).
Qed.

(** ** The queue floor *)

Lemma fresh_states_lookup (names : list string) (m : string)
    (st : MachineState) :
  fresh_states names !! m = Some st → m ∈ names ∧ st = MachineState_new m.
Proof.
  unfold fresh_states. intros H. apply elem_of_list_to_map_2 in H.
  apply list_elem_of_fmap in H as (name & Heq & Hin).
  by inversion Heq; subst.
Qed.

Lemma update_state_queue (ev : MachineEvent) (st : MachineState) :
  0 ≤ queue st → 0 ≤ queue (update_state ev st).
Proof.
  intros Hq. unfold update_state, note_event.
  remember (event ev) as e eqn:He.
  destruct (queue_length ev) as [q|]; case_names e; simpl; lia.
Qed.

Lemma states_step_queues (ev : MachineEvent)
    (ms : gmap string MachineState) :
  queues_ok ms → queues_ok (states_step ev ms).
Proof.
  intros Hms m st. unfold states_step.
  destruct (decide (machine ev = m)) as [<-|Hne].
  - rewrite lookup_insert_eq. intros [= <-]. apply update_state_queue.
    destruct (ms !! machine ev) as [st'|] eqn:Hst; simpl; [|done].
    by apply (Hms _ _ Hst).
  - rewrite lookup_insert_ne by done. apply Hms.
Qed.

Lemma replay_states_queues (l : list MachineEvent)
    (ms : gmap string MachineState) :
  queues_ok ms → queues_ok (foldl (λ ms ev, states_step ev ms) ms l).
Proof.
  revert ms. induction l as [|ev l IH]; intros ms Hms; simpl; [done|].
  by apply IH, states_step_queues.
Qed.

(** C6.  In every state reachable from a new engine by [reset],
    [advance], [advance_to] and [seek] calls, whatever the event log
    (negative [queue_length] values included), every entry of the
    machine-state registry, and so every state yielded by
    [iter_states], has a queue that is at least 0. *)
Theorem queue_never_negative (d : SimulationData)
    (c : SimulationController) :
  reachable d c →
  (∀ m st, machine_states c !! m = Some st → 0 ≤ queue st)
  ∧ (∀ st, st ∈ iter_states c → 0 ≤ queue st).
Proof.
  intros Hc.
  assert (Hq : queues_ok (machine_states c)).
  { apply (reachable_inv d (λ c, queues_ok (machine_states c))); [| |done].
    - intros m st Hst. simpl in Hst.
      by apply fresh_states_lookup in Hst as [_ ->].
    - intros c' target _ Hq.
      destruct (advance_to_spec target c') as (_ & _ & _ & -> & _).
      by apply replay_states_queues. }
  split; [exact Hq|]. intros st Hst. unfold iter_states in Hst.
  apply list_elem_of_fmap in Hst as ([m st'] & -> & Hin).
  apply elem_of_map_to_list in Hin. by apply (Hq m).
Qed.

Lemma queue_never_negative_witness :
  (∀ m st, machine_states Samples.queued !! m = Some st → 0 ≤ queue st)
  ∧ (∀ st, st ∈ iter_states Samples.queued → 0 ≤ queue st).
Proof.
  apply (queue_never_negative Samples.queue_sim Samples.queued).
  apply reachable_step, reachable_init.
Defined.

(** ** The machine names of a log *)

Lemma elem_of_sorted_strs (s : string) (l : list string) :
  s ∈ sorted_strs l ↔ s ∈ l.
Proof.
  induction l as [|x l IH]; simpl; [done|].
  rewrite elem_of_cons, <- IH. clear IH.
  induction (sorted_strs l) as [|y l' IH]; simpl.
  - apply elem_of_cons.
  - destruct (String.leb x y); [apply elem_of_cons|].
    rewrite !elem_of_cons, IH. tauto.
Qed.

Lemma machines_nonempty (evs : list MachineEvent) (d : SimulationData) :
  SimulationData_init evs = inr d → EmptyString ∉ machines d.
Proof.
  unfold SimulationData_init. destruct (sorted_by_time evs); [done|].
  intros [= <-]. simpl. rewrite elem_of_sorted_strs, elem_of_elements.
  unfold machine_set. rewrite elem_of_list_to_set, list_elem_of_filter.
  by intros [? _].
Qed.

(** ** The forward-only pointer *)

Lemma advance_loop_pointer (fuel : nat) (target : Q)
    (c : SimulationController) :
  (pointer c ≤ pointer (advance_loop fuel target c))%nat.
Proof.
  revert c. induction fuel as [|fuel IH]; intros c; simpl; [done|].
  destruct (events (data c) !! pointer c) as [ev|]; [|done].
  destruct (Qle_bool (time_min ev) target); [|done].
  etrans; [|apply IH]. simpl.
  destruct (apply_event_frame ev c) as (_ & _ & -> & _). lia.
Qed.

Lemma advance_to_applied (target : Q) (c : SimulationController) :
  (pointer c ≤ pointer (advance_to target c))%nat
  ∧ applied_advance_to target c
    = seq (pointer c) (pointer (advance_to target c) - pointer c).
Proof.
  destruct (advance_to_spec target c) as (_ & _ & -> & _ & _ & _ & ->).
  split; [lia|]. f_equal. lia.
Qed.

Lemma run_ops_cons (o : op) (os : list op) (c : SimulationController) :
  run_ops (o :: os) c = run_ops os (run_op o c).
Proof. reflexivity. Qed.

Lemma advance_to_calls_applied (targets : list Q)
    (c : SimulationController) :
  let os := OpAdvanceTo <$> targets in
  (pointer c ≤ pointer (run_ops os c))%nat
  ∧ applied_ops os c
    = seq (pointer c) (pointer (run_ops os c) - pointer c).
Proof.
  revert c. induction targets as [|target targets IH]; intros c.
  - split; [done|]. simpl. by rewrite Nat.sub_diag.
  - cbv zeta. rewrite fmap_cons, run_ops_cons.
    change (applied_ops (OpAdvanceTo target :: (OpAdvanceTo <$> targets)) c)
      with (applied_advance_to target c
            ++ applied_ops (OpAdvanceTo <$> targets)
                 (advance_to target c))%list.
    change (run_op (OpAdvanceTo target) c) with (advance_to target c).
    destruct (advance_to_applied target c) as [Hle ->].
    destruct (IH (advance_to target c)) as [Hle' ->].
    split; [lia|].
    set (p1 := pointer (advance_to target c)) in *.
    set (p2 := pointer (run_ops _ _)) in *.
    replace (seq p1 (p2 - p1))
      with (seq (pointer c + (p1 - pointer c)) (p2 - p1)) by (f_equal; lia).
    rewrite <- seq_app. f_equal. lia.
Qed.

(** C7.  The loop of [advance_to] never moves the pointer backward,
    whatever the number of iterations; one [advance_to] call leaves
    the pointer at least where it was and applies exactly the events at
    the positions from the old pointer up to the new one, each once and
    in order; and over a sequence of [advance_to] calls (whatever the
    targets, non-decreasing ones in particular) the pointer never
    decreases and the positions applied are again the consecutive
    ones between the first and the last pointer, so no event of the log
    is applied twice. *)
Theorem pointer_monotone :
  (∀ fuel target c,
     (pointer c ≤ pointer (advance_loop fuel target c))%nat)
  ∧ (∀ target c,
       (pointer c ≤ pointer (advance_to target c))%nat
       ∧ applied_advance_to target c
         = seq (pointer c) (pointer (advance_to target c) - pointer c))
  ∧ (∀ targets c,
       let os := OpAdvanceTo <$> targets in
       (pointer c ≤ pointer (run_ops os c))%nat
       ∧ applied_ops os c
         = seq (pointer c) (pointer (run_ops os c) - pointer c)
       ∧ NoDup (applied_ops os c)).
Proof.
  split; [exact advance_loop_pointer|]. split; [exact advance_to_applied|].
  intros targets c os.
  destruct (advance_to_calls_applied targets c) as [Hle Heq].
  fold os in Hle, Heq. split; [done|]. split; [done|].
  rewrite Heq. apply NoDup_ListNoDup, List.seq_NoDup.
Qed.

(** ** Eviction of completed transports *)

Lemma registry_step_absent (k : TransportKey) (ev : MachineEvent)
    (ts : gmap TransportKey Transport) :
  ts !! k = None → ¬ starts_key k ev → registry_step ev ts !! k = None.
Proof.
  intros Hk Hev. unfold registry_step.
  destruct (String.eqb_spec (event ev) "TRANSPORT_START") as [He|He].
  - rewrite lookup_insert_ne; [done|]. intros Hkey. by apply Hev.
  - destruct (String.eqb (event ev) "TRANSPORT_END").
    + destruct (ts !! transport_key ev) as [t|] eqn:Ht; [|done].
      rewrite lookup_insert_ne; [done|]. intros <-. congruence.
    + destruct (String.eqb (event ev) "TRANSPORT_CANCEL"); [|done].
      rewrite lookup_delete. by case_decide.
Qed.

Lemma replay_registry_absent (k : TransportKey) (l : list MachineEvent)
    (ts : gmap TransportKey Transport) :
  ts !! k = None → Forall (λ ev, ¬ starts_key k ev) l →
  foldl (λ ts ev, registry_step ev ts) ts l !! k = None.
Proof.
  revert ts. induction l as [|ev l IH]; intros ts Hk Hl; simpl; [done|].
  inversion Hl; subst. apply IH; [|done]. by apply registry_step_absent.
Qed.

Lemma refresh_lookup (c : SimulationController) (k : TransportKey) :
  let c' := refresh_active_transports c in
  transports c' !! k
  = (t ← transports c !! k;
     if expired (current_time c) t then None else Some t)
  ∧ active_transports c' !! k = clone_transport <$> transports c' !! k.
Proof.
  simpl. rewrite lookup_fmap. split; [|done].
  rewrite map_lookup_filter. destruct (transports c !! k) as [t|]; [|done].
  simpl. by destruct (expired (current_time c) t).
Qed.

Lemma advance_to_absent (k : TransportKey) (target : Q)
    (c : SimulationController) :
  transports c !! k = None →
  (∀ i ev, i ∈ applied_advance_to target c →
           events (data c) !! i = Some ev → ¬ starts_key k ev) →
  transports (advance_to target c) !! k = None
  ∧ active_transports (advance_to target c) !! k = None.
Proof.
  intros Hk Hev.
  destruct (advance_to_spec target c) as (_ & _ & _ & _ & Hts & Ha & Hlog).
  rewrite Hlog in Hev. rewrite Ha, Hts, lookup_fmap.
  set (n := count_due _ _) in *.
  assert (H : filter
                (λ kv, expired (clamp_target (data c) target) kv.2 = false)
                (foldl (λ ts ev, registry_step ev ts) (transports c)
                   (take n (drop (pointer c) (events (data c))))) !! k
              = None).
  { apply map_lookup_filter_None. left. apply replay_registry_absent; [done|].
    apply Forall_forall. intros ev Hin.
    apply list_elem_of_lookup in Hin as [j Hj].
    apply lookup_take_Some in Hj as [Hj Hjn]. rewrite lookup_drop in Hj.
    apply (Hev (pointer c + j)%nat); [|done].
    apply elem_of_seq. lia. }
  by rewrite H.
Qed.

Lemma run_op_data (o : op) (c : SimulationController) :
  data (run_op o c) = data c.
Proof.
  destruct o as [|delta|target|target]; unfold run_op, advance; [done| | |].
  - by destruct (advance_to_spec (current_time c + delta)%Q c) as (-> & _).
  - by destruct (advance_to_spec target c) as (-> & _).
  - destruct (seek_cases target c) as [-> | ->].
    + by destruct (advance_to_spec target c) as (-> & _).
    + by destruct (advance_to_spec target
                     (SimulationController_init (data c))) as (-> & _).
Qed.

Lemma run_op_absent (k : TransportKey) (o : op) (c : SimulationController) :
  transports c !! k = None →
  (∀ i ev, i ∈ applied_op o c →
           events (data c) !! i = Some ev → ¬ starts_key k ev) →
  transports (run_op o c) !! k = None
  ∧ active_transports (run_op o c) !! k = None.
Proof.
  intros Hk Hev.
  destruct o as [|delta|target|target]; unfold run_op, advance; [done| | |].
  - by apply advance_to_absent.
  - by apply advance_to_absent.
  - unfold seek. unfold applied_op in Hev.
    destruct (Qlt_le_dec target (current_time c));
      by apply advance_to_absent.
Qed.

Lemma run_ops_absent (k : TransportKey) (os : list op)
    (c : SimulationController) :
  transports c !! k = None → active_transports c !! k = None →
  (∀ i ev, i ∈ applied_ops os c →
           events (data c) !! i = Some ev → ¬ starts_key k ev) →
  transports (run_ops os c) !! k = None
  ∧ active_transports (run_ops os c) !! k = None.
Proof.
  revert c. induction os as [|o os IH]; intros c Hk Ha Hev; [done|].
  rewrite run_ops_cons.
  destruct (run_op_absent k o c) as [Hk' Ha']; [done| |].
  { intros i ev Hi. apply Hev. simpl. apply elem_of_app. by left. }
  apply IH; [done|done|]. intros i ev Hi. rewrite run_op_data.
  apply Hev. simpl. apply elem_of_app. by right.
Qed.

(** C3.  When a refresh finds a transport whose end time is set and
    satisfies [end_time + 0.1 < current_time], the transport leaves
    the registry and is absent from the snapshot of that refresh; and
    after any further calls ([reset], [advance], [advance_to], [seek])
    it is still absent from the registry and from the snapshot, as
    long as none of the events those calls apply is a
    [TRANSPORT_START] with the same identity key. *)
Theorem eviction_is_permanent (c : SimulationController)
    (k : TransportKey) (t : Transport) (e : Q) :
  transports c !! k = Some t →
  t_end_time t = Some e →
  (e + (1 # 10) < current_time c)%Q →
  let c' := refresh_active_transports c in
  transports c' !! k = None
  ∧ active_transports c' !! k = None
  ∧ ∀ os,
      (∀ i ev, i ∈ applied_ops os c' →
               events (data c) !! i = Some ev → ¬ starts_key k ev) →
      transports (run_ops os c') !! k = None
      ∧ active_transports (run_ops os c') !! k = None.
Proof.
  intros Hk He Hlt c'.
  destruct (refresh_lookup c k) as [Hts Ha]. fold c' in Hts, Ha.
  assert (Hgone : transports c' !! k = None).
  { rewrite Hts, Hk. simpl. unfold expired. rewrite He.
    destruct (Qlt_le_dec (e + (1 # 10)) (current_time c)); [done|lra]. }
  assert (Hgone' : active_transports c' !! k = None) by by rewrite Ha, Hgone.
  split; [done|]. split; [done|]. intros os Hev.
  by apply run_ops_absent.
Qed.

Lemma eviction_is_permanent_witness :
  let c' := refresh_active_transports Samples.dup_before_refresh in
  let os := [OpSeek 3; OpAdvance 1] in
  transports c' !! Scenario.P1 = None
  ∧ active_transports c' !! Scenario.P1 = None
  ∧ transports (run_ops os c') !! Scenario.P1 = None
  ∧ active_transports (run_ops os c') !! Scenario.P1 = None.
Proof.
  intros c' os.
  destruct (eviction_is_permanent Samples.dup_before_refresh Scenario.P1
              Samples.dup_ended (1 # 2)) as (Hts & Ha & Hlater);
    [reflexivity | reflexivity | reflexivity |].
  split; [exact Hts|]. split; [exact Ha|]. apply Hlater.
  intros i ev Hi Hev [He _]. vm_compute in Hi.
  apply list_elem_of_singleton in Hi. subst i. vm_compute in Hev.
  injection Hev as <-. discriminate He.
Defined.

(** ** Seeking and replaying *)

Lemma count_due_le (t : Q) (l : list MachineEvent) :
  (count_due t l ≤ length l)%nat.
Proof.
  induction l as [|ev l IH]; simpl; [done|].
  destruct (Qle_bool (time_min ev) t); simpl; lia.
Qed.

Lemma count_due_prefix (t : Q) (l : list MachineEvent) :
  Forall (λ ev, (time_min ev <= t)%Q) (take (count_due t l) l).
Proof.
  induction l as [|ev l IH]; simpl; [constructor|].
  destruct (Qle_bool (time_min ev) t) eqn:Hle; simpl; [|constructor].
  constructor; [by apply Qle_bool_true|done].
Qed.

Lemma count_due_split (t : Q) (p : nat) (l : list MachineEvent) :
  (p ≤ length l)%nat →
  Forall (λ ev, (time_min ev <= t)%Q) (take p l) →
  count_due t l = (p + count_due t (drop p l))%nat.
Proof.
  revert l. induction p as [|p IH]; intros l Hp Hl; [done|].
  destruct l as [|ev l]; simpl in *; [lia|].
  inversion Hl as [|? ? Hev Hl']; subst.
  apply Qle_bool_true in Hev. rewrite Hev. f_equal. apply IH; [lia|done].
Qed.

Lemma registry_step_mono (ev : MachineEvent)
    (ts1 ts2 : gmap TransportKey Transport) :
  ts1 ⊆ ts2 → registry_step ev ts1 ⊆ registry_step ev ts2.
Proof.
  intros Hsub. unfold registry_step.
  destruct (String.eqb (event ev) "TRANSPORT_START"); [by apply insert_mono|].
  destruct (String.eqb (event ev) "TRANSPORT_END").
  - destruct (ts1 !! transport_key ev) as [t|] eqn:H1.
    + rewrite (lookup_weaken _ _ _ _ H1 Hsub). by apply insert_mono.
    + destruct (ts2 !! transport_key ev); [|done].
      by apply insert_subseteq_r.
  - destruct (String.eqb (event ev) "TRANSPORT_CANCEL"); [|done].
    by apply delete_mono.
Qed.

Lemma replay_registry_mono (l : list MachineEvent)
    (ts1 ts2 : gmap TransportKey Transport) :
  ts1 ⊆ ts2 →
  foldl (λ ts ev, registry_step ev ts) ts1 l
  ⊆ foldl (λ ts ev, registry_step ev ts) ts2 l.
Proof.
  revert ts1 ts2. induction l as [|ev l IH]; intros ts1 ts2 H; simpl;
    [done|]. by apply IH, registry_step_mono.
Qed.

Lemma clamp_target_range (d : SimulationData) (target : Q) :
  (start_time d <= end_time d)%Q →
  (start_time d <= clamp_target d target)%Q
  ∧ (clamp_target d target <= end_time d)%Q.
Proof.
  intros Hd. unfold clamp_target, py_min, py_max.
  destruct (Qlt_le_dec target (start_time d));
    match goal with
    | |- context [Qlt_le_dec ?a ?b] => destruct (Qlt_le_dec a b)
    end; lra.
Qed.

Lemma clamp_target_above (d : SimulationData) (target t : Q) :
  (t <= end_time d)%Q → (t <= target)%Q → (t <= clamp_target d target)%Q.
Proof.
  intros Hd Ht. unfold clamp_target, py_min, py_max.
  destruct (Qlt_le_dec target (start_time d));
    match goal with
    | |- context [Qlt_le_dec ?a ?b] => destruct (Qlt_le_dec a b)
    end; lra.
Qed.

Lemma time_range (evs : list MachineEvent) (d : SimulationData) :
  SimulationData_init evs = inr d → (start_time d <= end_time d)%Q.
Proof.
  unfold SimulationData_init.
  pose proof (sorted_by_time_sorted evs) as Hs.
  destruct (sorted_by_time evs) as [|x rest] eqn:He; [done|].
  intros [= <-]. simpl. unfold last_time.
  destruct (last (x :: rest)) as [y|] eqn:Hl; [|by apply last_None in Hl].
  apply last_Some_elem_of in Hl. inversion Hs as [|? ? _ Hx]; subst.
  apply elem_of_cons in Hl as [-> | Hin]; [lra|].
  by apply (proj1 (Forall_forall _ _) Hx).
Qed.

Lemma in_step_init (d : SimulationData) :
  (start_time d <= end_time d)%Q → in_step d (SimulationController_init d).
Proof.
  intros Hd. unfold in_step, replay_states, replay_registry. simpl.
  repeat split; try done; try lia; try lra. 
Qed.

Lemma in_step_advance_to (d : SimulationData) (target : Q)
    (c : SimulationController) :
  (start_time d <= end_time d)%Q →
  in_step d c → (current_time c <= clamp_target d target)%Q →
  in_step d (advance_to target c).
Proof.
  intros Hd (Hdata & Hp & Hlo & Hhi & Hdue & Hms & Hts) Hfwd.
  destruct (advance_to_spec target c)
    as (Hd' & Ht' & Hp' & Hms' & Hts' & _).
  rewrite Hdata in *. set (t := clamp_target d target) in *.
  set (n := count_due t (drop (pointer c) (events d))) in *.
  pose proof (count_due_le t (drop (pointer c) (events d))) as Hn.
  rewrite length_drop in Hn. fold n in Hn.
  destruct (clamp_target_range d target Hd) as [Hlo' Hhi'].
  unfold in_step. rewrite Hd', Ht', Hp'.
  split; [done|]. split; [lia|]. split; [done|]. split; [done|].
  split; [|split].
  - rewrite <- take_take_drop. apply Forall_app. split.
    + eapply Forall_impl; [exact Hdue|]. simpl. intros ev Hev. 
      fold t. lra.
    + apply count_due_prefix.
  - rewrite Hms', Hms. unfold replay_states.
    by rewrite <- take_take_drop, foldl_app.
  - rewrite Hts'. unfold replay_registry.
    rewrite <- take_take_drop, foldl_app.
    etrans; [apply map_filter_subseteq|]. by apply replay_registry_mono.
Qed.

Lemma forward_reachable_in_step (d : SimulationData)
    (c : SimulationController) :
  (start_time d <= end_time d)%Q → forward_reachable d c → in_step d c.
Proof.
  intros Hd Hc. induction Hc as
    [|c Hc IH|c target Hc IH|c target Hc IH Ht|c delta Hc IH Ht].
  - by apply in_step_init.
  - destruct IH as (<- & _). by apply in_step_init.
  - pose proof IH as (Hdata & _ & _ & Hhi & _). unfold seek.
    destruct (Qlt_le_dec target (current_time c)) as [Hlt|Hge].
    + rewrite reset_init, Hdata. apply in_step_advance_to; [done| |].
      * by apply in_step_init.
      * simpl. by apply clamp_target_range.
    + apply in_step_advance_to; [done|done|].
      by apply clamp_target_above.
  - pose proof IH as (_ & _ & _ & Hhi & _).
    apply in_step_advance_to; [done|done|]. by apply clamp_target_above.
  - pose proof IH as (_ & _ & _ & Hhi & _). unfold advance.
    apply in_step_advance_to; [done|done|]. apply clamp_target_above; lra.
Qed.

Lemma reachable_run_ops (d : SimulationData) (os : list op)
    (c : SimulationController) :
  reachable d c → reachable d (run_ops os c).
Proof.
  revert c. induction os as [|o os IH]; intros c Hc; [done|].
  rewrite run_ops_cons. by apply IH, reachable_step.
Qed.

Lemma seek_backward (d : SimulationData) (c : SimulationController)
    (target : Q) :
  data c = d → (target < current_time c)%Q →
  seek target c = advance_to target (SimulationController_init d).
Proof.
  intros <- Hlt. unfold seek.
  destruct (Qlt_le_dec target (current_time c)); [done|lra].
Qed.

Lemma advance_to_init_spec (d : SimulationData) (target : Q) :
  let t := clamp_target d target in
  let n := count_due t (events d) in
  let b := advance_to target (SimulationController_init d) in
  current_time b = t
  ∧ pointer b = n
  ∧ machine_states b = replay_states d n
  ∧ active_transports b
    = clone_transport
      <$> filter (λ kv, expired t kv.2 = false) (replay_registry d n).
Proof.
  destruct (advance_to_spec target (SimulationController_init d))
    as (_ & Ht & Hp & Hms & _ & Ha & _).
  change (data (SimulationController_init d)) with d in *.
  change (pointer (SimulationController_init d)) with 0%nat in *.
  change (machine_states (SimulationController_init d))
    with (fresh_states (machines d)) in *.
  change (transports (SimulationController_init d))
    with (∅ : gmap TransportKey Transport) in *.
  rewrite drop_0 in Hp, Hms, Ha. done.
Qed.

Lemma advance_to_replay (d : SimulationData) (c : SimulationController)
    (target : Q) :
  in_step d c → (current_time c <= clamp_target d target)%Q →
  let a := advance_to target c in
  let b := advance_to target (SimulationController_init d) in
  current_time a = current_time b
  ∧ pointer a = pointer b
  ∧ machine_states a = machine_states b
  ∧ active_transports a ⊆ active_transports b.
Proof.
  intros (Hdata & Hp & _ & _ & Hdue & Hms & Hts) Hfwd.
  destruct (advance_to_spec target c) as (_ & Hta & Hpa & Hmsa & _ & Haa & _).
  destruct (advance_to_init_spec d target) as (Htb & Hpb & Hmsb & Hab).
  rewrite Hdata in Hta, Hpa, Hmsa, Haa.
  set (t := clamp_target d target) in *.
  assert (Hn : count_due t (events d)
               = (pointer c + count_due t (drop (pointer c) (events d)))%nat).
  { apply count_due_split; [done|].
    eapply Forall_impl; [exact Hdue|]. simpl. intros ev Hev. lra. }
  cbv zeta. rewrite Hta, Htb, Hpa, Hpb, Hmsa, Hmsb, Haa, Hab, Hn, Hms.
  unfold replay_states, replay_registry.
  rewrite <- !take_take_drop, !foldl_app.
  split; [done|]. split; [done|]. split; [done|].
  apply map_fmap_mono, map_filter_subseteq_mono.
  by apply replay_registry_mono.
Qed.

Lemma seek_forward_reachable (d : SimulationData)
    (c : SimulationController) (target : Q) :
  (start_time d <= end_time d)%Q → forward_reachable d c →
  let a := seek target c in
  let b := advance_to target (SimulationController_init d) in
  current_time a = current_time b
  ∧ pointer a = pointer b
  ∧ machine_states a = machine_states b
  ∧ active_transports a ⊆ active_transports b.
Proof.
  intros Hd Hc. pose proof (forward_reachable_in_step d c Hd Hc) as Hin.
  pose proof Hin as (Hdata & _ & _ & Hhi & _). unfold seek.
  destruct (Qlt_le_dec target (current_time c)) as [Hlt|Hge].
  - by rewrite reset_init, Hdata.
  - apply advance_to_replay; [done|]. by apply clamp_target_above.
Qed.

Lemma same_or_evicted_later (now now' : Q) (x y : option Transport) :
  (now <= now')%Q → same_or_evicted now x y → same_or_evicted now' x y.
Proof.
  intros Hle [H | (H & t & e & Hy & He & Hlt)]; [by left|].
  right. split; [done|]. exists t, e. repeat split; try done. lra.
Qed.

Lemma registry_step_pairing (now : Q) (ev : MachineEvent)
    (inc full : gmap TransportKey Transport) :
  (event ev = "TRANSPORT_END" →
   ∀ t, full !! transport_key ev = Some t → t_end_time t = None) →
  (∀ k, same_or_evicted now (inc !! k) (full !! k)) →
  ∀ k, same_or_evicted now (registry_step ev inc !! k)
                       (registry_step ev full !! k).
Proof.
  intros Hend H k. unfold registry_step.
  destruct (String.eqb (event ev) "TRANSPORT_START").
  { rewrite !lookup_insert. case_decide; [by left|apply H]. }
  destruct (String.eqb_spec (event ev) "TRANSPORT_END") as [He|He].
  { destruct (H (transport_key ev)) as [Heq | (Hnone & t & e & Hf & Ht & _)].
    - rewrite Heq. destruct (full !! transport_key ev) as [t|]; [|apply H].
      rewrite !lookup_insert. case_decide; [by left|apply H].
    - rewrite (Hend He t Hf) in Ht. discriminate Ht. }
  destruct (String.eqb (event ev) "TRANSPORT_CANCEL"); [|apply H].
  rewrite !lookup_delete. case_decide; [by left|apply H].
Qed.

Lemma replay_registry_S (d : SimulationData) (i : nat) (ev : MachineEvent) :
  events d !! i = Some ev →
  replay_registry d (S i) = registry_step ev (replay_registry d i).
Proof.
  intros Hev. unfold replay_registry.
  by rewrite (take_S_r _ _ _ Hev), foldl_app.
Qed.

Lemma replay_pairing (d : SimulationData) (now : Q) (m p : nat)
    (inc : gmap TransportKey Transport) :
  ends_once d → (p + m ≤ length (events d))%nat →
  (∀ k, same_or_evicted now (inc !! k) (replay_registry d p !! k)) →
  ∀ k, same_or_evicted now
         (foldl (λ ts ev, registry_step ev ts) inc
                (take m (drop p (events d))) !! k)
         (replay_registry d (p + m) !! k).
Proof.
  intros Hends. induction m as [|m IH]; intros Hm H.
  - by rewrite Nat.add_0_r.
  - destruct (lookup_lt_is_Some_2 (events d) (p + m)) as [ev Hev]; [lia|].
    assert (Hev' : drop p (events d) !! m = Some ev)
      by by rewrite lookup_drop.
    rewrite (take_S_r _ _ _ Hev'), foldl_app. simpl.
    rewrite Nat.add_succ_r, (replay_registry_S _ _ _ Hev).
    apply registry_step_pairing.
    + intros He t. by apply Hends.
    + apply IH; [lia|done].
Qed.

Lemma refresh_pairing (now : Q) (inc full : gmap TransportKey Transport) :
  (∀ k, same_or_evicted now (inc !! k) (full !! k)) →
  ∀ k, same_or_evicted now
         (filter (λ kv, expired now kv.2 = false) inc !! k) (full !! k).
Proof.
  intros H k. rewrite map_lookup_filter.
  destruct (H k) as [Heq | (Hnone & Hev)].
  - destruct (inc !! k) as [t|] eqn:Hk; simpl; [|by left].
    destruct (expired now t) eqn:Hex.
    + right. split; [done|]. unfold expired in Hex.
      destruct (t_end_time t) as [e|] eqn:He; [|done].
      destruct (Qlt_le_dec (e + (1 # 10)) now); [|done].
      by exists t, e.
    + left. by rewrite <- Heq.
  - right. by rewrite Hnone.
Qed.

Lemma registry_in_step_init (d : SimulationData) :
  registry_in_step d (SimulationController_init d).
Proof. intros k. by left. Qed.

Lemma registry_in_step_advance_to (d : SimulationData) (target : Q)
    (c : SimulationController) :
  ends_once d → in_step d c → registry_in_step d c →
  (current_time c <= clamp_target d target)%Q →
  registry_in_step d (advance_to target c).
Proof.
  intros Hends (Hdata & Hp & _) Hreg Hfwd k.
  destruct (advance_to_spec target c) as (_ & -> & -> & _ & -> & _).
  rewrite Hdata. set (t := clamp_target d target) in *.
  pose proof (count_due_le t (drop (pointer c) (events d))) as Hn.
  rewrite length_drop in Hn.
  apply refresh_pairing, replay_pairing; [done|lia|].
  intros k'. by apply (same_or_evicted_later (current_time c)).
Qed.

Lemma forward_reachable_registry (d : SimulationData)
    (c : SimulationController) :
  (start_time d <= end_time d)%Q → ends_once d →
  forward_reachable d c → registry_in_step d c.
Proof.
  intros Hd Hends Hc. induction Hc as
    [|c Hc IH|c target Hc IH|c target Hc IH Ht|c delta Hc IH Ht];
    try (pose proof (forward_reachable_in_step d c Hd Hc) as Hin;
         pose proof Hin as (Hdata & _ & _ & Hhi & _)).
  - apply registry_in_step_init.
  - rewrite reset_init, Hdata. apply registry_in_step_init.
  - unfold seek. destruct (Qlt_le_dec target (current_time c)).
    + rewrite reset_init, Hdata.
      apply registry_in_step_advance_to; [done| | |].
      * by apply in_step_init.
      * apply registry_in_step_init.
      * simpl. by apply clamp_target_range.
    + apply registry_in_step_advance_to; [done|done|done|].
      by apply clamp_target_above.
  - apply registry_in_step_advance_to; [done|done|done|].
    by apply clamp_target_above.
  - unfold advance. apply registry_in_step_advance_to; [done|done|done|].
    apply clamp_target_above; lra.
Qed.

Lemma advance_to_unexpired (target : Q) (c : SimulationController)
    (k : TransportKey) (t : Transport) :
  transports (advance_to target c) !! k = Some t →
  expired (current_time (advance_to target c)) t = false.
Proof.
  destruct (advance_to_spec target c) as (_ & -> & _ & _ & -> & _).
  intros H. by apply map_lookup_filter_Some in H as [_ H].
Qed.

Lemma advance_to_snapshot (target : Q) (c : SimulationController) :
  active_transports (advance_to target c)
  = clone_transport <$> transports (advance_to target c).
Proof.
  by destruct (advance_to_spec target c) as (_ & _ & _ & _ & -> & -> & _).
Qed.

Lemma seek_is_advance_to (target : Q) (c : SimulationController) :
  ∃ c0, seek target c = advance_to target c0.
Proof. unfold seek. eauto. Qed.

Lemma seek_snapshot_paired (d : SimulationData) (c : SimulationController)
    (target : Q) :
  (start_time d <= end_time d)%Q → ends_once d → forward_reachable d c →
  active_transports (seek target c)
  = active_transports (advance_to target (SimulationController_init d)).
Proof.
  intros Hd Hends Hc.
  pose proof (forward_reachable_registry d _ Hd Hends
                (forward_seek d c target Hc)) as Hreg.
  destruct (seek_forward_reachable d c target Hd Hc) as (Ht & Hp & _).
  destruct (advance_to_init_spec d target) as (Htb & Hpb & _ & ->).
  destruct (seek_is_advance_to target c) as [c0 Hc0].
  pose proof (advance_to_unexpired target c0) as Hun.
  pose proof (advance_to_snapshot target c0) as Hsnap.
  rewrite <- Hc0 in Hun, Hsnap. rewrite Hsnap.
  rewrite Htb in Ht. rewrite Hpb in Hp.
  apply map_eq. intros k. rewrite !lookup_fmap. f_equal.
  rewrite map_lookup_filter.
  specialize (Hreg k). rewrite Ht, Hp in Hreg.
  destruct Hreg as [Heq | (Hnone & t & e & Hf & He & Hlt)].
  - rewrite <- Heq. destruct (transports (seek target c) !! k) as [t|] eqn:Hk;
      [|done]. simpl. apply Hun in Hk. rewrite Ht in Hk. by rewrite Hk.
  - rewrite Hnone, Hf. simpl. unfold expired. rewrite He.
    by destruct (Qlt_le_dec (e + (1 # 10)) (clamp_target d target)); [|lra].
Qed.

Lemma forward_reachable_reachable (d : SimulationData)
    (c : SimulationController) :
  forward_reachable d c → reachable d c.
Proof.
  induction 1 as [|c _ IH|c target _ IH|c target _ IH _|c delta _ IH _].
  - constructor.
  - apply (reachable_step d c OpReset IH).
  - apply (reachable_step d c (OpSeek target) IH).
  - apply (reachable_step d c (OpAdvanceTo target) IH).
  - apply (reachable_step d c (OpAdvance delta) IH).
Qed.

Lemma scenario_ends_once : ends_once Scenario.sim.
Proof.
  intros i ev t Hev He Hreg.
  destruct i as [|[|[|[|i]]]]; simpl in Hev; try discriminate Hev;
    injection Hev as <-; try discriminate He.
  vm_compute in Hreg. by injection Hreg as <-.
Qed.

(** C2 (amended).  [seek] agrees with a replay from a new engine in
    the following cases.  From any reachable state, a [seek] to a time
    before the current one resets and so is exactly [advance_to] on a
    new engine.  From a state reached by forward-only calls ([reset],
    [seek], and [advance_to] or [advance] that do not go back in
    time), [seek] yields the clock, pointer and machine states of the
    replay, and a snapshot whose transports are all in the snapshot of
    the replay; the two snapshots are equal when no [TRANSPORT_END] of
    the log hits a transport already ended.  In particular, on such a
    log, [seek 3], [seek 1], [seek 3] on a new engine give the machine
    states and the snapshot of a single [advance_to 3]. *)
Theorem seek_replays_log :
  (∀ d c target,
     reachable d c → (target < current_time c)%Q →
     seek target c = advance_to target (SimulationController_init d))
  ∧ (∀ evs d c target,
       SimulationData_init evs = inr d → forward_reachable d c →
       let a := seek target c in
       let b := advance_to target (SimulationController_init d) in
       current_time a = current_time b
       ∧ pointer a = pointer b
       ∧ machine_states a = machine_states b
       ∧ active_transports a ⊆ active_transports b
       ∧ (ends_once d → active_transports a = active_transports b))
  ∧ (∀ evs d,
       SimulationData_init evs = inr d → ends_once d →
       let a := run_ops [OpSeek 3; OpSeek 1; OpSeek 3]
                        (SimulationController_init d) in
       let b := advance_to 3 (SimulationController_init d) in
       machine_states a = machine_states b
       ∧ active_transports a = active_transports b).
Proof.
  assert (Hfwd : ∀ evs d c target,
     SimulationData_init evs = inr d → forward_reachable d c →
     let a := seek target c in
     let b := advance_to target (SimulationController_init d) in
     current_time a = current_time b
     ∧ pointer a = pointer b
     ∧ machine_states a = machine_states b
     ∧ active_transports a ⊆ active_transports b
     ∧ (ends_once d → active_transports a = active_transports b)).
  { intros evs d c target Hd Hc a b.
    pose proof (time_range evs d Hd) as Hrange.
    destruct (seek_forward_reachable d c target Hrange Hc)
      as (Ht & Hp & Hms & Hsub).
    repeat split; try done. intros Hends.
    by apply seek_snapshot_paired. }
  split; [|split; [exact Hfwd|]].
  - intros d c target Hc Hlt. apply seek_backward; [|done].
    by destruct (reachable_inv d (λ _, True)) with (c := c).
  - intros evs d Hd Hends a b.
    destruct (Hfwd evs d
                (run_ops [OpSeek 3; OpSeek 1] (SimulationController_init d))
                3%Q Hd) as (_ & _ & Hms & _ & Ha).
    { apply forward_seek, forward_seek, forward_init. }
    split; [exact Hms|]. by apply Ha.
Qed.

Lemma seek_replays_log_witness :
  (seek 1 (run_op (OpAdvanceTo 3) Samples.dup_fresh)
   = advance_to 1 Samples.dup_fresh)
  ∧ (let a := seek 3 (seek 1 (seek 3 Samples.dup_fresh)) in
     let b := advance_to 3 Samples.dup_fresh in
     current_time a = current_time b
     ∧ pointer a = pointer b
     ∧ machine_states a = machine_states b
     ∧ active_transports a ⊆ active_transports b)
  ∧ (let a := seek 12 (advance 4 (seek 7 Scenario.fresh)) in
     let b := advance_to 12 Scenario.fresh in
     active_transports a = active_transports b)
  ∧ (let a := run_ops [OpSeek 3; OpSeek 1; OpSeek 3] Scenario.fresh in
     let b := advance_to 3 Scenario.fresh in
     machine_states a = machine_states b
     ∧ active_transports a = active_transports b).
Proof.
  destruct seek_replays_log as (Hback & Hfwd & Hthree).
  split; [|split; [|split]].
  - apply (Hback Samples.dup_sim).
    + apply reachable_step, reachable_init.
    + reflexivity.
  - destruct (Hfwd Samples.dup_log Samples.dup_sim
                (seek 1 (seek 3 Samples.dup_fresh)) 3%Q)
      as (Ht & Hp & Hms & Hsub & _); [reflexivity| |].
    + apply forward_seek, forward_seek, forward_init.
    + exact (conj Ht (conj Hp (conj Hms Hsub))).
  - destruct (Hfwd Scenario.log Scenario.sim
                (advance 4 (seek 7 Scenario.fresh)) 12%Q)
      as (_ & _ & _ & _ & Heq); [reflexivity| |].
    + apply forward_advance; [|vm_compute; discriminate].
      apply forward_seek, forward_init.
    + apply Heq, scenario_ends_once.
  - apply (Hthree Scenario.log Scenario.sim);
      [reflexivity | apply scenario_ends_once].
Defined.

(** C2 as stated fails.  After [advance_to 10] and [advance_to 3] on
    the scenario log, [seek 5] does not reset and keeps the machine
    states of time 10, which are not those of [advance_to 5] on a new
    engine.  And on a log that ends the transport of P1 twice,
    [seek 3], [seek 1], [seek 3] give a snapshot without that
    transport, evicted at time 1, while a single [advance_to 3] on a
    new engine gives one with it. *)
Lemma seek_differs_from_replay :
  (let c := run_ops [OpAdvanceTo 10; OpAdvanceTo 3] Scenario.fresh in
   reachable Scenario.sim c
   ∧ machine_states (seek 5 c)
     ≠ machine_states (advance_to 5 Scenario.fresh))
  ∧ (let c := run_ops [OpSeek 3; OpSeek 1] Samples.dup_fresh in
     reachable Samples.dup_sim c
     ∧ active_transports (seek 3 c)
       ≠ active_transports (advance_to 3 Samples.dup_fresh)).
Proof.
  split; (split; [apply reachable_run_ops, reachable_init|]); intros H.
  - apply (f_equal (λ m, status <$> m !! "M1")) in H. vm_compute in H.
    discriminate H.
  - apply (f_equal (λ m, t_end_time <$> m !! Scenario.P1)) in H.
    vm_compute in H. discriminate H.
Qed.

(** * Further properties *)

(** ** The event log container, continued *)

Lemma insert_str_perm (s : string) (l : list string) :
  insert_str s l ≡ₚ s :: l.
Proof.
  induction l as [|x l IH]; simpl; [done|].
  destruct (String.leb s x); [done|]. rewrite IH. apply Permutation_swap.
Qed.

Lemma sorted_strs_perm (l : list string) : sorted_strs l ≡ₚ l.
Proof.
  induction l as [|x l IH]; simpl; [done|].
  by rewrite insert_str_perm, IH.
Qed.

Lemma insert_str_sorted (s : string) (l : list string) :
  Sorted str_le l → Sorted str_le (insert_str s l).
Proof.
  induction 1 as [|x l Hl IH Hx]; simpl.
  - repeat constructor.
  - destruct (String.leb s x) eqn:Hle.
    + constructor; [by constructor|]. by constructor.
    + constructor; [done|].
      assert (Hxs : str_le x s).
      { destruct (String.leb_total s x) as [H|H]; [congruence|done]. }
      destruct l as [|y l]; simpl; [by constructor|].
      destruct (String.leb s y); constructor; [done|].
      by inversion Hx.
Qed.

Lemma sorted_strs_sorted (l : list string) : Sorted str_le (sorted_strs l).
Proof.
  induction l as [|x l IH]; simpl; [constructor|].
  by apply insert_str_sorted.
Qed.

(** The fields of a container that was built without error. *)
Lemma data_fields (evs : list MachineEvent) (d : SimulationData) :
  SimulationData_init evs = inr d →
  sorted_by_time evs ≠ []
  ∧ events d = sorted_by_time evs
  ∧ start_time d = first_time (sorted_by_time evs)
  ∧ end_time d = last_time (sorted_by_time evs)
  ∧ machines d = sorted_strs (elements (machine_set (sorted_by_time evs)))
  ∧ data_machine_states d = fresh_states (machines d).
Proof.
  unfold SimulationData_init. destruct (sorted_by_time evs); [done|].
  by intros [= <-].
Qed.

Lemma data_events_perm (evs : list MachineEvent) (d : SimulationData) :
  SimulationData_init evs = inr d → events d ≡ₚ evs.
Proof.
  intros Hd. destruct (data_fields evs d Hd) as (_ & -> & _).
  apply sorted_by_time_perm.
Qed.

Lemma data_events_sorted (evs : list MachineEvent) (d : SimulationData) :
  SimulationData_init evs = inr d → StronglySorted time_le (events d).
Proof.
  intros Hd. destruct (data_fields evs d Hd) as (_ & -> & _).
  apply sorted_by_time_sorted.
Qed.

Lemma fresh_states_lookup_iff (names : list string) (m : string)
    (st : MachineState) :
  fresh_states names !! m = Some st ↔ m ∈ names ∧ st = MachineState_new m.
Proof.
  split; [apply fresh_states_lookup|]. intros [Hin ->].
  unfold fresh_states. induction names as [|x names IH]; simpl.
  - by apply elem_of_nil in Hin.
  - destruct (decide (x = m)) as [->|Hne].
    + by rewrite lookup_insert_eq.
    + rewrite lookup_insert_ne by done. apply IH.
      by apply elem_of_cons in Hin as [->|Hin].
Qed.

Lemma elem_of_machines (evs : list MachineEvent) (d : SimulationData)
    (m : string) :
  SimulationData_init evs = inr d →
  m ∈ machines d ↔ m ≠ EmptyString ∧ ∃ e, e ∈ evs ∧ machine e = m.
Proof.
  intros Hd. destruct (data_fields evs d Hd) as (_ & _ & _ & _ & Hm & _).
  rewrite Hm, elem_of_sorted_strs, elem_of_elements.
  unfold machine_set. rewrite elem_of_list_to_set, list_elem_of_filter.
  rewrite list_elem_of_fmap. unfold truthy. split.
  - intros (Ht & e & -> & Hin). split.
    + intros H. rewrite H in Ht. discriminate Ht.
    + exists e. split; [|done]. by rewrite <- (sorted_by_time_perm evs).
  - intros (Hne & e & Hin & <-). split.
    + by destruct (String.eqb_spec (machine e) EmptyString).
    + exists e. split; [done|]. by rewrite (sorted_by_time_perm evs).
Qed.

(** X1.  The log kept by [SimulationData] is the input reordered: it
    has the same events, they are in non-decreasing order of time, and
    events of equal time keep the order they had in the input. *)
Theorem log_is_sorted_stably (evs : list MachineEvent)
    (d : SimulationData) :
  SimulationData_init evs = inr d →
  events d ≡ₚ evs
  ∧ StronglySorted time_le (events d)
  ∧ ∀ t, filter (λ e, Qeq_bool (time_min e) t = true) (events d)
         = filter (λ e, Qeq_bool (time_min e) t = true) evs.
Proof.
  intros Hd. split; [by apply data_events_perm|].
  split; [by apply (data_events_sorted evs)|]. intros t.
  destruct (data_fields evs d Hd) as (_ & -> & _).
  apply sorted_by_time_stable.
Qed.

Lemma log_is_sorted_stably_witness :
  events Scenario.sim ≡ₚ Scenario.log
  ∧ StronglySorted time_le (events Scenario.sim)
  ∧ ∀ t, filter (λ e, Qeq_bool (time_min e) t = true) (events Scenario.sim)
         = filter (λ e, Qeq_bool (time_min e) t = true) Scenario.log.
Proof. apply (log_is_sorted_stably Scenario.log). reflexivity. Defined.

(** X2.  [start_time] and [end_time] are times of events of the input,
    the earliest and the latest: every event of the input lies between
    them. *)
Theorem log_time_range (evs : list MachineEvent) (d : SimulationData) :
  SimulationData_init evs = inr d →
  (∃ e, e ∈ evs ∧ time_min e = start_time d)
  ∧ (∃ e, e ∈ evs ∧ time_min e = end_time d)
  ∧ ∀ e, e ∈ evs →
      (start_time d <= time_min e)%Q ∧ (time_min e <= end_time d)%Q.
Proof.
  intros Hd. destruct (data_fields evs d Hd) as (Hne & _ & -> & -> & _).
  pose proof (sorted_by_time_sorted evs) as Hs.
  pose proof (sorted_by_time_perm evs) as Hp.
  destruct (sorted_by_time evs) as [|x rest] eqn:He; [done|].
  unfold last_time. simpl.
  destruct (last (x :: rest)) as [y|] eqn:Hl; [|by apply last_None in Hl].
  split; [|split].
  - exists x. split; [|done]. rewrite <- Hp. by left.
  - exists y. split; [|done]. rewrite <- Hp.
    by apply last_Some_elem_of.
  - intros e He'. rewrite <- Hp in He'.
    inversion Hs as [|? ? Hrest Hx]; subst. split.
    + apply elem_of_cons in He' as [-> | Hin]; [lra|].
      by apply (proj1 (Forall_forall _ _) Hx).
    + apply last_Some in Hl as [l' Hl]. rewrite Hl in Hs, He'.
      apply elem_of_app in He' as [Hin | Hin%list_elem_of_singleton];
        [|subst; lra].
      clear -Hs Hin.
      induction l' as [|z l' IH]; [by apply elem_of_nil in Hin|].
      simpl in Hs. inversion Hs as [|? ? Hs'' Hz]; subst.
      apply elem_of_cons in Hin as [-> | Hin].
      * apply (proj1 (Forall_forall _ _) Hz). apply elem_of_app. right.
        by apply list_elem_of_singleton.
      * by apply IH.
Qed.

Lemma log_time_range_witness :
  (∃ e, e ∈ Samples.dup_log ∧ time_min e = start_time Samples.dup_sim)
  ∧ (∃ e, e ∈ Samples.dup_log ∧ time_min e = end_time Samples.dup_sim)
  ∧ ∀ e, e ∈ Samples.dup_log →
      (start_time Samples.dup_sim <= time_min e)%Q
      ∧ (time_min e <= end_time Samples.dup_sim)%Q.
Proof. apply (log_time_range Samples.dup_log). reflexivity. Defined.

(** X3.  The machine list of [SimulationData] holds exactly the
    non-empty machine names that occur in the input, each once, in the
    order of [sorted]; and the container's own registry maps each of
    them to a default state. *)
Theorem machines_of_log (evs : list MachineEvent) (d : SimulationData) :
  SimulationData_init evs = inr d →
  (∀ m, m ∈ machines d
        ↔ m ≠ EmptyString ∧ ∃ e, e ∈ evs ∧ machine e = m)
  ∧ NoDup (machines d)
  ∧ Sorted str_le (machines d)
  ∧ ∀ m st, data_machine_states d !! m = Some st
            ↔ m ∈ machines d ∧ st = MachineState_new m.
Proof.
  intros Hd. destruct (data_fields evs d Hd) as (_ & _ & _ & _ & Hm & Hs).
  split; [|split; [|split]].
  - intros m. by apply (elem_of_machines evs).
  - rewrite Hm, sorted_strs_perm. apply NoDup_elements.
  - rewrite Hm. apply sorted_strs_sorted.
  - intros m st. rewrite Hs. apply fresh_states_lookup_iff.
Qed.

Lemma machines_of_log_witness :
  (∀ m, m ∈ machines Samples.transit_sim
        ↔ m ≠ EmptyString
          ∧ ∃ e, e ∈ Samples.transit_log ∧ machine e = m)
  ∧ NoDup (machines Samples.transit_sim)
  ∧ Sorted str_le (machines Samples.transit_sim)
  ∧ ∀ m st, data_machine_states Samples.transit_sim !! m = Some st
            ↔ m ∈ machines Samples.transit_sim ∧ st = MachineState_new m.
Proof. apply (machines_of_log Samples.transit_log). reflexivity. Defined.

(** ** Invariants of the reachable states *)

Lemma sound_init (d : SimulationData) : sound d (SimulationController_init d).
Proof.
  unfold sound, replay_states, replay_registry. simpl.
  split; [lia|]. split; [done|]. split; [done|].
  split; [by rewrite fmap_empty|]. intros k t H.
  by rewrite lookup_empty in H.
Qed.

Lemma sound_advance_to (d : SimulationData) (target : Q)
    (c : SimulationController) :
  data c = d → sound d c → sound d (advance_to target c).
Proof.
  intros Hdata (Hp & Hms & Hts & _).
  destruct (advance_to_spec target c)
    as (_ & Ht' & Hp' & Hms' & Hts' & Ha' & _).
  rewrite Hdata in Ht', Hp', Hms', Hts', Ha'.
  set (t := clamp_target d target) in *.
  set (n := count_due t (drop (pointer c) (events d))) in *.
  pose proof (count_due_le t (drop (pointer c) (events d))) as Hn.
  rewrite length_drop in Hn. fold n in Hn.
  unfold sound. rewrite Ht', Hp', Hms', Hts', Ha'.
  split; [lia|]. split; [|split; [|split; [done|]]].
  - rewrite Hms. unfold replay_states.
    by rewrite <- take_take_drop, foldl_app.
  - unfold replay_registry. rewrite <- take_take_drop, foldl_app.
    etrans; [apply map_filter_subseteq|]. by apply replay_registry_mono.
  - intros k x H. by apply map_lookup_filter_Some in H as [_ H].
Qed.

Lemma reachable_sound (d : SimulationData) (c : SimulationController) :
  reachable d c → data c = d ∧ sound d c.
Proof.
  apply reachable_inv; [apply sound_init|].
  intros c' target. apply sound_advance_to.
Qed.

Lemma replay_states_S (d : SimulationData) (i : nat) (ev : MachineEvent) :
  events d !! i = Some ev →
  replay_states d (S i) = states_step ev (replay_states d i).
Proof.
  intros Hev. unfold replay_states.
  by rewrite (take_S_r _ _ _ Hev), foldl_app.
Qed.

(** Induction on the replayed prefix. *)
Lemma replay_states_ind (d : SimulationData)
    (P : nat → gmap string MachineState → Prop) :
  P 0%nat (fresh_states (machines d)) →
  (∀ i ev ms, events d !! i = Some ev → P i ms →
              P (S i) (states_step ev ms)) →
  ∀ n, (n ≤ length (events d))%nat → P n (replay_states d n).
Proof.
  intros H0 HS. induction n as [|n IH]; intros Hn; [done|].
  destruct (lookup_lt_is_Some_2 (events d) n) as [ev Hev]; [lia|].
  rewrite (replay_states_S _ _ _ Hev). apply (HS n ev); [done|].
  apply IH. lia.
Qed.

Lemma replay_registry_ind (d : SimulationData)
    (P : nat → gmap TransportKey Transport → Prop) :
  P 0%nat ∅ →
  (∀ i ev ts, events d !! i = Some ev → P i ts →
              P (S i) (registry_step ev ts)) →
  ∀ n, (n ≤ length (events d))%nat → P n (replay_registry d n).
Proof.
  intros H0 HS. induction n as [|n IH]; intros Hn; [done|].
  destruct (lookup_lt_is_Some_2 (events d) n) as [ev Hev]; [lia|].
  rewrite (replay_registry_S _ _ _ Hev). apply (HS n ev); [done|].
  apply IH. lia.
Qed.

Lemma update_state_fields (ev : MachineEvent) (st : MachineState) :
  ms_machine (update_state ev st) = ms_machine st
  ∧ last_event (update_state ev st) = Some (event ev)
  ∧ transports_out (update_state ev st) = transports_out st
  ∧ (status_known (status st) → status_known (status (update_state ev st))).
Proof.
  unfold update_state, note_event, status_known.
  remember (event ev) as e eqn:He.
  destruct (queue_length ev); case_names e; simpl; auto 10.
Qed.

(** ** The entry of the empty machine name *)

(** Once an event of machine [m] is consumed, the replayed registry
    has an entry for [m], and its [last_event] is the name of a
    consumed event of [m] that is not earlier in the log. *)
Lemma replay_states_consumed (d : SimulationData) (m : string) (n : nat) :
  (n ≤ length (events d))%nat →
  ∀ i ev, events d !! i = Some ev → (i < n)%nat → machine ev = m →
    ∃ st j ev',
      replay_states d n !! m = Some st
      ∧ (i ≤ j < n)%nat
      ∧ events d !! j = Some ev'
      ∧ machine ev' = m
      ∧ last_event st = Some (event ev').
Proof.
  revert n. apply (replay_states_ind d (λ n ms,
    ∀ i ev, events d !! i = Some ev → (i < n)%nat → machine ev = m →
      ∃ st j ev', ms !! m = Some st ∧ (i ≤ j < n)%nat
                  ∧ events d !! j = Some ev' ∧ machine ev' = m
                  ∧ last_event st = Some (event ev'))).
  - intros i ev _ Hi. lia.
  - intros k e ms He IH i ev Hev Hi Hm. unfold states_step.
    destruct (decide (machine e = m)) as [Heq|Hne].
    + rewrite Heq, lookup_insert_eq.
      eexists _, k, e. split; [reflexivity|].
      split; [lia|]. split; [done|]. split; [done|].
      apply update_state_fields.
    + rewrite lookup_insert_ne by done.
      assert (i ≠ k) as Hik.
      { intros ->. rewrite He in Hev. injection Hev as ->. done. }
      destruct (IH i ev Hev ltac:(lia) Hm) as (st & j & ev' & Hst & Hj & H').
      exists st, j, ev'. split; [done|]. split; [lia|done].
Qed.

(** C10.  The machine list of [SimulationData] leaves out the empty
    identifier, so the registry has no entry under the empty string
    right after [reset].  Applying an event whose machine field is
    empty leaves an entry under the empty string: the previous entry,
    or a new default state when there was none (its machine name is
    then the empty string), with the event noted in it, so that its
    [last_event] is the name of the event.  And in every reachable
    state whose pointer is past such an event, the registry and
    [iter_states] hold that entry, and its [last_event] is the name of
    a consumed event with an empty machine field. *)
Theorem empty_machine_entry :
  (∀ evs d, SimulationData_init evs = inr d →
     ∀ c, data c = d → machine_states (reset c) !! EmptyString = None)
  ∧ (∀ ev c, machine ev = EmptyString →
       ∃ st,
         machine_states (apply_event ev c) !! EmptyString = Some st
         ∧ st = update_state ev
                  (default (MachineState_new EmptyString)
                           (machine_states c !! EmptyString))
         ∧ last_event st = Some (event ev)
         ∧ (machine_states c !! EmptyString = None →
            ms_machine st = EmptyString))
  ∧ (∀ d c, reachable d c →
       ∀ i ev, events d !! i = Some ev → (i < pointer c)%nat →
               machine ev = EmptyString →
               ∃ st j ev',
                 machine_states c !! EmptyString = Some st
                 ∧ st ∈ iter_states c
                 ∧ (i ≤ j < pointer c)%nat
                 ∧ events d !! j = Some ev'
                 ∧ machine ev' = EmptyString
                 ∧ last_event st = Some (event ev')).
Proof.
  split; [|split].
  - intros evs d Hd c <-. simpl.
    destruct (fresh_states (machines (data c)) !! EmptyString)
      as [st|] eqn:Hst; [|done].
    apply fresh_states_lookup in Hst as [Hin _].
    by apply (machines_nonempty _ _ Hd) in Hin.
  - intros ev c Hm. rewrite apply_event_machine_states. unfold states_step.
    rewrite Hm, lookup_insert_eq. eexists. split; [reflexivity|].
    split; [reflexivity|].
    destruct (update_state_fields ev
                (default (MachineState_new EmptyString)
                         (machine_states c !! EmptyString)))
      as (Hname & Hlast & _).
    split; [exact Hlast|]. intros Hnone. rewrite Hname, Hnone. reflexivity.
  - intros d c Hc i ev Hev Hi Hm.
    destruct (reachable_sound d c Hc) as (_ & Hp & Hms & _).
    destruct (replay_states_consumed d EmptyString (pointer c) Hp i ev
                Hev Hi Hm) as (st & j & ev' & Hst & Hj & Hev' & Hm' & Hl).
    rewrite <- Hms in Hst. exists st, j, ev'.
    split; [exact Hst|]. split; [|exact (conj Hj (conj Hev' (conj Hm' Hl)))].
    unfold iter_states. apply list_elem_of_fmap. exists (EmptyString, st).
    split; [done|]. by apply elem_of_map_to_list.
Qed.

Lemma empty_machine_entry_witness :
  machine_states (reset Samples.transit_fresh) !! EmptyString = None
  ∧ (∃ st,
       machine_states (apply_event Samples.transit Samples.transit_fresh)
         !! EmptyString
       = Some st
       ∧ st = update_state Samples.transit (MachineState_new EmptyString)
       ∧ last_event st = Some "TRANSPORT_START"
       ∧ ms_machine st = EmptyString)
  ∧ ∃ st,
      machine_states (run_op (OpAdvanceTo 3) Samples.transit_fresh)
        !! EmptyString
      = Some st
      ∧ st ∈ iter_states (run_op (OpAdvanceTo 3) Samples.transit_fresh)
      ∧ last_event st = Some "TRANSPORT_START".
Proof.
  destruct empty_machine_entry as (Hreset & Happly & Hreach).
  split; [|split].
  - apply (Hreset Samples.transit_log Samples.transit_sim); reflexivity.
  - destruct (Happly Samples.transit Samples.transit_fresh eq_refl)
      as (st & Hst & Heq & Hl & Hn).
    exists st. split; [exact Hst|]. split; [exact Heq|].
    split; [exact Hl|]. apply Hn. reflexivity.
  - destruct (Hreach Samples.transit_sim _
                (reachable_step _ _ (OpAdvanceTo 3) (reachable_init _))
                1%nat Samples.transit)
      as (st & j & ev' & Hst & Hin & Hj & Hev' & _ & Hl);
      [reflexivity | vm_compute; lia | reflexivity |].
    exists st. split; [exact Hst|]. split; [exact Hin|].
    rewrite Hl. f_equal.
    assert (j = 1%nat) as -> by (vm_compute in Hj; lia).
    vm_compute in Hev'. by injection Hev' as <-.
Defined.

(** X4.  In every reachable state of an engine built on a log, the
    machine registry has an entry for every machine of the log, and no
    entry for any other name except possibly the empty one; every entry
    is filed under its own machine name, has one of the statuses idle,
    processing and breakdown, and an empty [transports_out]. *)
Theorem machine_registry_invariant (evs : list MachineEvent)
    (d : SimulationData) (c : SimulationController) :
  SimulationData_init evs = inr d → reachable d c →
  (∀ m, m ∈ machines d → is_Some (machine_states c !! m))
  ∧ (∀ m, is_Some (machine_states c !! m) →
          m ∈ machines d ∨ m = EmptyString)
  ∧ ∀ m st, machine_states c !! m = Some st →
            ms_machine st = m
            ∧ status_known (status st)
            ∧ transports_out st = ∅.
Proof.
  intros Hd Hc. destruct (reachable_sound d c Hc) as (_ & Hp & -> & _).
  revert Hp. generalize (pointer c).
  apply (replay_states_ind d (λ _ ms,
    (∀ m, m ∈ machines d → is_Some (ms !! m))
    ∧ (∀ m, is_Some (ms !! m) → m ∈ machines d ∨ m = EmptyString)
    ∧ ∀ m st, ms !! m = Some st →
        ms_machine st = m ∧ status_known (status st)
        ∧ transports_out st = ∅)).
  - split; [|split].
    + intros m Hm. exists (MachineState_new m).
      by apply fresh_states_lookup_iff.
    + intros m [st Hst]. left. by apply fresh_states_lookup in Hst as [? _].
    + intros m st Hst. apply fresh_states_lookup in Hst as [_ ->].
      unfold status_known. simpl. auto.
  - intros i ev ms Hev (Hdom & Hkeys & Hst). unfold states_step.
    split; [|split].
    + intros m Hm. rewrite lookup_insert. case_decide; [done|by apply Hdom].
    + intros m. rewrite lookup_insert. case_decide as Hm; [|apply Hkeys].
      intros _. subst m.
      destruct (decide (machine ev = EmptyString)) as [|Hne]; [by right|].
      left. apply (elem_of_machines evs d _ Hd). split; [done|].
      exists ev. split; [|done]. rewrite <- (data_events_perm evs d Hd).
      by apply list_elem_of_lookup_2 in Hev.
    + intros m st. rewrite lookup_insert. case_decide as Hm; [|apply Hst].
      intros [= <-]. subst m.
      destruct (update_state_fields ev
                  (default (MachineState_new (machine ev))
                           (ms !! machine ev))) as (-> & _ & -> & Hs).
      destruct (ms !! machine ev) as [st|] eqn:Hlk; simpl.
      * destruct (Hst _ _ Hlk) as (? & ? & ?). split; [done|].
        split; [|done]. by apply Hs.
      * split; [done|]. split; [|done]. apply Hs. by left.
Qed.

Lemma machine_registry_invariant_witness :
  let c := run_op (OpAdvanceTo 3) Samples.transit_fresh in
  (∀ m, m ∈ machines Samples.transit_sim →
        is_Some (machine_states c !! m))
  ∧ (∀ m, is_Some (machine_states c !! m) →
          m ∈ machines Samples.transit_sim ∨ m = EmptyString)
  ∧ ∀ m st, machine_states c !! m = Some st →
            ms_machine st = m
            ∧ status_known (status st)
            ∧ transports_out st = ∅.
Proof.
  apply (machine_registry_invariant Samples.transit_log); [reflexivity|].
  apply reachable_step, reachable_init.
Defined.

(** X5.  The machine states of a reachable state depend on the pointer
    only: they are the default states of the machines of the log with
    the first [pointer] events applied in order.  So two reachable
    states of engines on the same log with the same pointer have the
    same machine states, whatever calls led to them. *)
Theorem machine_states_follow_pointer (d : SimulationData)
    (c : SimulationController) :
  reachable d c →
  (pointer c ≤ length (events d))%nat
  ∧ machine_states c
    = foldl (λ ms ev, states_step ev ms) (fresh_states (machines d))
            (take (pointer c) (events d))
  ∧ ∀ c', reachable d c' → pointer c' = pointer c →
          machine_states c' = machine_states c.
Proof.
  intros Hc. destruct (reachable_sound d c Hc) as (_ & Hp & Hms & _).
  split; [done|]. split; [done|]. intros c' Hc' Heq.
  destruct (reachable_sound d c' Hc') as (_ & _ & Hms' & _).
  by rewrite Hms, Hms', Heq.
Qed.

Lemma machine_states_follow_pointer_witness :
  let c := run_ops [OpAdvanceTo 10; OpAdvanceTo 3] Scenario.fresh in
  (pointer c ≤ length (events Scenario.sim))%nat
  ∧ machine_states c
    = foldl (λ ms ev, states_step ev ms)
            (fresh_states (machines Scenario.sim))
            (take (pointer c) (events Scenario.sim))
  ∧ ∀ c', reachable Scenario.sim c' → pointer c' = pointer c →
          machine_states c' = machine_states c.
Proof.
  apply (machine_states_follow_pointer Scenario.sim).
  apply reachable_run_ops, reachable_init.
Defined.

Lemma states_step_last_event (ev : MachineEvent)
    (ms : gmap string MachineState) (m : string) :
  (states_step ev ms !! m ≫= last_event)
  = if decide (machine ev = m) then Some (event ev)
    else ms !! m ≫= last_event.
Proof.
  unfold states_step. rewrite lookup_insert. case_decide; [|done].
  simpl. by destruct (update_state_fields ev
    (default (MachineState_new (machine ev)) (ms !! machine ev)))
    as (_ & -> & _).
Qed.

Lemma events_of_S (d : SimulationData) (m : string) (i : nat)
    (ev : MachineEvent) :
  events d !! i = Some ev →
  events_of d m (S i)
  = (events_of d m i ++ if decide (machine ev = m) then [ev] else [])%list.
Proof.
  intros Hev. unfold events_of.
  by rewrite (take_S_r _ _ _ Hev), filter_app.
Qed.

(** X6.  In a reachable state, the [last_event] of a machine is the
    name of the last event of that machine among the consumed ones,
    and it is unset exactly when no event of that machine has been
    consumed. *)
Theorem last_event_is_latest (d : SimulationData)
    (c : SimulationController) (m : string) :
  reachable d c →
  (machine_states c !! m ≫= last_event)
  = event <$> last (events_of d m (pointer c)).
Proof.
  intros Hc. destruct (reachable_sound d c Hc) as (_ & Hp & -> & _).
  revert Hp. generalize (pointer c).
  apply (replay_states_ind d (λ n ms,
    (ms !! m ≫= last_event) = event <$> last (events_of d m n))).
  - unfold events_of. simpl.
    destruct (fresh_states (machines d) !! m) as [st|] eqn:Hst; [|done].
    by apply fresh_states_lookup in Hst as [_ ->].
  - intros i ev ms Hev IH.
    rewrite states_step_last_event, (events_of_S _ _ _ _ Hev).
    case_decide.
    + by rewrite last_snoc.
    + by rewrite app_nil_r.
Qed.

Lemma last_event_is_latest_witness :
  (machine_states Scenario.s15 !! "M1" ≫= last_event)
  = event <$> last (events_of Scenario.sim "M1" (pointer Scenario.s15)).
Proof.
  apply last_event_is_latest.
  apply (reachable_step _ _ (OpAdvanceTo 15)).
  apply (reachable_step _ _ (OpAdvanceTo 7)), reachable_init.
Defined.

(** X7.  On a log built by [SimulationData], the clock of every
    reachable state lies between [start_time] and [end_time], whatever
    targets and deltas were passed, and the pointer never runs past the
    end of the log. *)
Theorem clock_stays_in_log (evs : list MachineEvent) (d : SimulationData)
    (c : SimulationController) :
  SimulationData_init evs = inr d → reachable d c →
  (start_time d <= current_time c)%Q
  ∧ (current_time c <= end_time d)%Q
  ∧ (pointer c ≤ length (events d))%nat.
Proof.
  intros Hd Hc. pose proof (time_range evs d Hd) as Hrange.
  destruct (reachable_sound d c Hc) as (_ & Hp & _).
  destruct (reachable_inv d (λ c, (start_time d <= current_time c)%Q
                                  ∧ (current_time c <= end_time d)%Q))
    with (c := c) as (_ & Hlo & Hhi); [| |done|done].
  - simpl. lra.
  - intros c' target Hdata _.
    destruct (advance_to_spec target c') as (_ & -> & _). rewrite Hdata.
    by apply clamp_target_range.
Qed.

Lemma clock_stays_in_log_witness :
  let c := run_ops [OpAdvance 100; OpSeek (-7); OpAdvanceTo 40]
                   Scenario.fresh in
  (start_time Scenario.sim <= current_time c)%Q
  ∧ (current_time c <= end_time Scenario.sim)%Q
  ∧ (pointer c ≤ length (events Scenario.sim))%nat.
Proof.
  apply (clock_stays_in_log Scenario.log); [reflexivity|].
  apply reachable_run_ops, reachable_init.
Defined.

(** ** Invariants of the transport registry *)

Lemma registry_step_keys (ev : MachineEvent)
    (ts : gmap TransportKey Transport) :
  (∀ k t, ts !! k = Some t →
          is_Some (t_from_machine t) ∧ key_of t = k) →
  ∀ k t, registry_step ev ts !! k = Some t →
         is_Some (t_from_machine t) ∧ key_of t = k.
Proof.
  intros H k t. unfold registry_step.
  destruct (String.eqb (event ev) "TRANSPORT_START").
  { rewrite lookup_insert. case_decide as Hk; [|apply H].
    intros [= <-]. split; [|done]. simpl. unfold or_opt_str.
    destruct (truthy_opt (from_machine ev)) eqn:Ht; [|done].
    by destruct (from_machine ev). }
  destruct (String.eqb (event ev) "TRANSPORT_END").
  { destruct (ts !! transport_key ev) as [t0|] eqn:Hk0; [|apply H].
    rewrite lookup_insert. case_decide as Hk; [|apply H].
    intros [= <-]. destruct (H _ _ Hk0) as [Hfrom Hkey].
    split; [done|]. by rewrite <- Hk, <- Hkey. }
  destruct (String.eqb (event ev) "TRANSPORT_CANCEL"); [|apply H].
  rewrite lookup_delete. case_decide; [done|apply H].
Qed.

Lemma replay_registry_keys (d : SimulationData) (n : nat)
    (k : TransportKey) (t : Transport) :
  (n ≤ length (events d))%nat → replay_registry d n !! k = Some t →
  is_Some (t_from_machine t) ∧ key_of t = k.
Proof.
  intros Hn. revert k t. revert n Hn.
  apply (replay_registry_ind d (λ _ ts,
    ∀ k t, ts !! k = Some t → is_Some (t_from_machine t) ∧ key_of t = k)).
  - intros k t H. by rewrite lookup_empty in H.
  - intros i ev ts _. apply registry_step_keys.
Qed.

(** X8.  In every reachable state the active-transport snapshot is
    made of the copies of the entries of the registry, key by key, and
    none of these transports is expired: one whose end time is set
    ended no more than the grace period before the current time. *)
Theorem snapshot_mirrors_registry (d : SimulationData)
    (c : SimulationController) :
  reachable d c →
  active_transports c = clone_transport <$> transports c
  ∧ (∀ k, is_Some (active_transports c !! k)
          ↔ is_Some (transports c !! k))
  ∧ ∀ k t e, active_transports c !! k = Some t → t_end_time t = Some e →
             (current_time c <= e + (1 # 10))%Q.
Proof.
  intros Hc. destruct (reachable_sound d c Hc) as (_ & _ & _ & _ & Ha & Hex).
  split; [done|]. split.
  - intros k. rewrite Ha, lookup_fmap. by rewrite fmap_is_Some.
  - intros k t e. rewrite Ha, lookup_fmap.
    destruct (transports c !! k) as [t0|] eqn:Hk; [|done].
    intros [= <-] He. specialize (Hex k t0 Hk). unfold expired in Hex.
    assert (He0 : t_end_time t0 = Some e).
    { revert He. unfold clone_transport. by destruct (t_to_machine t0). }
    rewrite He0 in Hex.
    by destruct (Qlt_le_dec (e + (1 # 10)) (current_time c)).
Qed.

Lemma snapshot_mirrors_registry_witness :
  active_transports Scenario.s15_2
  = clone_transport <$> transports Scenario.s15_2
  ∧ (∀ k, is_Some (active_transports Scenario.s15_2 !! k)
          ↔ is_Some (transports Scenario.s15_2 !! k))
  ∧ ∀ k t e, active_transports Scenario.s15_2 !! k = Some t →
             t_end_time t = Some e →
             (current_time Scenario.s15_2 <= e + (1 # 10))%Q.
Proof.
  apply (snapshot_mirrors_registry Scenario.sim).
  apply (reachable_step _ _ (OpAdvanceTo (152 # 10))).
  apply (reachable_step _ _ (OpAdvanceTo 15)).
  apply (reachable_step _ _ (OpAdvanceTo 7)), reachable_init.
Defined.

(** X9.  In every reachable state, each transport of the registry has
    a source machine and is filed under the key made of its own
    product and entity ids; and each transport of the snapshot has a
    destination: its [to_machine] is never [None]. *)
Theorem transports_are_routed (d : SimulationData)
    (c : SimulationController) :
  reachable d c →
  (∀ k t, transports c !! k = Some t →
          is_Some (t_from_machine t) ∧ key_of t = k)
  ∧ ∀ k t, active_transports c !! k = Some t →
           is_Some (t_to_machine t) ∧ is_Some (t_from_machine t)
           ∧ key_of t = k.
Proof.
  intros Hc.
  destruct (reachable_sound d c Hc) as (_ & Hp & _ & Hsub & Ha & _).
  assert (Hreg : ∀ k t, transports c !! k = Some t →
                        is_Some (t_from_machine t) ∧ key_of t = k).
  { intros k t Hk. apply (replay_registry_keys d (pointer c)); [done|].
    by apply (lookup_weaken _ _ _ _ Hk). }
  split; [done|]. intros k t. rewrite Ha, lookup_fmap.
  destruct (transports c !! k) as [t0|] eqn:Hk; [|done].
  intros [= <-]. destruct (Hreg k t0 Hk) as [Hfrom Hkey].
  unfold clone_transport.
  destruct (t_to_machine t0) as [to|] eqn:Hto; [by rewrite Hto|].
  simpl. split; [|done]. unfold or_opt. simpl. done.
Qed.

Lemma transports_are_routed_witness :
  (∀ k t, transports Scenario.s7 !! k = Some t →
          is_Some (t_from_machine t) ∧ key_of t = k)
  ∧ ∀ k t, active_transports Scenario.s7 !! k = Some t →
           is_Some (t_to_machine t) ∧ is_Some (t_from_machine t)
           ∧ key_of t = k.
Proof.
  apply (transports_are_routed Scenario.sim).
  apply (reachable_step _ _ (OpAdvanceTo 7)), reachable_init.
Defined.

Lemma sorted_lookup_le (l : list MachineEvent) (i j : nat)
    (a b : MachineEvent) :
  StronglySorted time_le l → (i ≤ j)%nat →
  l !! i = Some a → l !! j = Some b → (time_min a <= time_min b)%Q.
Proof.
  intros Hs. revert i j. induction Hs as [|x l Hs IH Hx]; intros i j Hij Ha Hb.
  - by rewrite lookup_nil in Ha.
  - destruct i as [|i], j as [|j]; simpl in *; try lia.
    + injection Ha as <-. injection Hb as <-. lra.
    + injection Ha as <-. apply (proj1 (Forall_forall _ _) Hx).
      by apply list_elem_of_lookup_2 in Hb.
    + apply (IH i j); [lia|done|done].
Qed.

Lemma registry_step_times (l : list MachineEvent) (i : nat)
    (ev : MachineEvent) (ts : gmap TransportKey Transport) :
  StronglySorted time_le l → l !! i = Some ev →
  (∀ k t, ts !! k = Some t →
     (∀ j ev', (i ≤ j)%nat → l !! j = Some ev' →
               (t_start_time t <= time_min ev')%Q)
     ∧ ∀ e, t_end_time t = Some e → (t_start_time t <= e)%Q) →
  ∀ k t, registry_step ev ts !! k = Some t →
     (∀ j ev', (S i ≤ j)%nat → l !! j = Some ev' →
               (t_start_time t <= time_min ev')%Q)
     ∧ ∀ e, t_end_time t = Some e → (t_start_time t <= e)%Q.
Proof.
  intros Hs Hev H.
  assert (Hold : ∀ k t, ts !! k = Some t →
     (∀ j ev', (S i ≤ j)%nat → l !! j = Some ev' →
               (t_start_time t <= time_min ev')%Q)
     ∧ ∀ e, t_end_time t = Some e → (t_start_time t <= e)%Q).
  { intros k t Hk. destruct (H k t Hk) as [H1 H2]. split; [|done].
    intros j ev' Hj. apply H1. lia. }
  intros k t. unfold registry_step.
  destruct (String.eqb (event ev) "TRANSPORT_START").
  { rewrite lookup_insert. case_decide; [|apply Hold].
    intros [= <-]. simpl. split; [|done]. intros j ev' Hj Hev'.
    apply (sorted_lookup_le l i j); [done|lia|done|done]. }
  destruct (String.eqb (event ev) "TRANSPORT_END").
  { destruct (ts !! transport_key ev) as [t0|] eqn:Hk0; [|apply Hold].
    rewrite lookup_insert. case_decide; [|apply Hold].
    intros [= <-]. simpl. destruct (H _ _ Hk0) as [H1 _]. split.
    - intros j ev' Hj. apply H1. lia.
    - intros e [= <-]. by apply (H1 i). }
  destruct (String.eqb (event ev) "TRANSPORT_CANCEL"); [|apply Hold].
  rewrite lookup_delete. case_decide; [done|apply Hold].
Qed.

(** X10.  On a log built by [SimulationData], a transport never ends
    before it starts: in every reachable state, each transport of the
    registry or of the snapshot whose end time is set has
    [start_time <= end_time]. *)
Theorem transports_end_after_start (evs : list MachineEvent)
    (d : SimulationData) (c : SimulationController) :
  SimulationData_init evs = inr d → reachable d c →
  (∀ k t e, transports c !! k = Some t → t_end_time t = Some e →
            (t_start_time t <= e)%Q)
  ∧ ∀ k t e, active_transports c !! k = Some t → t_end_time t = Some e →
             (t_start_time t <= e)%Q.
Proof.
  intros Hd Hc. pose proof (data_events_sorted evs d Hd) as Hs.
  destruct (reachable_sound d c Hc) as (_ & Hp & _ & Hsub & Ha & _).
  assert (Hrep : ∀ n, (n ≤ length (events d))%nat →
    ∀ k t, replay_registry d n !! k = Some t →
      (∀ j ev', (n ≤ j)%nat → events d !! j = Some ev' →
                (t_start_time t <= time_min ev')%Q)
      ∧ ∀ e, t_end_time t = Some e → (t_start_time t <= e)%Q).
  { apply (replay_registry_ind d (λ n ts, ∀ k t, ts !! k = Some t →
      (∀ j ev', (n ≤ j)%nat → events d !! j = Some ev' →
                (t_start_time t <= time_min ev')%Q)
      ∧ ∀ e, t_end_time t = Some e → (t_start_time t <= e)%Q)).
    - intros k t H. by rewrite lookup_empty in H.
    - intros i ev ts Hev. by apply registry_step_times. }
  assert (Hreg : ∀ k t e, transports c !! k = Some t →
                          t_end_time t = Some e → (t_start_time t <= e)%Q).
  { intros k t e Hk. apply (Hrep (pointer c) Hp k).
    by apply (lookup_weaken _ _ _ _ Hk). }
  split; [done|]. intros k t e. rewrite Ha, lookup_fmap.
  destruct (transports c !! k) as [t0|] eqn:Hk; [|done].
  intros [= <-]. unfold clone_transport.
  destruct (t_to_machine t0); simpl; by apply (Hreg k t0 e).
Qed.

Lemma transports_end_after_start_witness :
  (∀ k t e, transports Scenario.s15 !! k = Some t →
            t_end_time t = Some e → (t_start_time t <= e)%Q)
  ∧ ∀ k t e, active_transports Scenario.s15 !! k = Some t →
             t_end_time t = Some e → (t_start_time t <= e)%Q.
Proof.
  apply (transports_end_after_start Scenario.log Scenario.sim);
    [reflexivity|].
  apply (reachable_step _ _ (OpAdvanceTo 15)).
  apply (reachable_step _ _ (OpAdvanceTo 7)), reachable_init.
Defined.

(** ** The interpolator, continued *)

Lemma clamp_mono (x y : Q) :
  (x <= y)%Q → (py_max 0 (py_min 1 x) <= py_max 0 (py_min 1 y))%Q.
Proof.
  intros Hxy. rewrite !clamp_max_min. unfold clamp.
  repeat match goal with
         | |- context [Qlt_le_dec ?a ?b] => destruct (Qlt_le_dec a b)
         end; lra.
Qed.

(** X11.  The progress of a transport never decreases as the clock
    advances.  For a transport that ends after it starts, it is 0 up
    to the start time and 1 from the end time on. *)
Theorem progress_follows_clock (t : Transport) :
  (∀ c1 c2, (c1 <= c2)%Q → (progress t c1 <= progress t c2)%Q)
  ∧ ∀ e, t_end_time t = Some e → (t_start_time t < e)%Q →
      (∀ clock, (clock <= t_start_time t)%Q → (progress t clock == 0)%Q)
      ∧ (∀ clock, (e <= clock)%Q → (progress t clock == 1)%Q).
Proof.
  split.
  - intros c1 c2 Hc. unfold progress.
    destruct (t_end_time t) as [e|]; [|lra]. cbv zeta.
    destruct (Qle_bool (e - t_start_time t) 0) eqn:Hd; [lra|].
    apply Qle_bool_false in Hd. apply clamp_mono.
    apply Qmult_le_compat_r; [lra|].
    apply Qlt_le_weak, Qinv_lt_0_compat. exact Hd.
  - intros e He Hlt. unfold progress. rewrite He. cbv zeta.
    assert (Hd : Qle_bool (e - t_start_time t) 0 = false).
    { apply Qle_bool_false. lra. }
    rewrite Hd. split; intros clock Hclock; rewrite clamp_max_min.
    + assert (Hq : ((clock - t_start_time t) / (e - t_start_time t) <= 0)%Q).
      { apply Qle_shift_div_r; lra. }
      unfold clamp.
      repeat match goal with
             | |- context [Qlt_le_dec ?a ?b] => destruct (Qlt_le_dec a b)
             end; lra.
    + assert (Hq : (1 <= (clock - t_start_time t) / (e - t_start_time t))%Q).
      { apply Qle_shift_div_l; lra. }
      unfold clamp.
      repeat match goal with
             | |- context [Qlt_le_dec ?a ?b] => destruct (Qlt_le_dec a b)
             end; lra.
Qed.

Lemma progress_follows_clock_witness :
  (progress Scenario.arrived 7 <= progress Scenario.arrived 12)%Q
  ∧ (progress Scenario.arrived 3 == 0)%Q
  ∧ (progress Scenario.arrived 16 == 1)%Q.
Proof.
  destruct (progress_follows_clock Scenario.arrived) as [Hmono Hends].
  destruct (Hends 15%Q eq_refl) as [Hlow Hhigh]; [reflexivity|].
  split; [apply Hmono; discriminate|].
  split; [apply Hlow | apply Hhigh]; discriminate.
Defined.

(** ** Calls composed *)

Lemma controller_eq (a b : SimulationController) :
  data a = data b → current_time a = current_time b →
  pointer a = pointer b → machine_states a = machine_states b →
  transports a = transports b →
  active_transports a = active_transports b → a = b.
Proof. destruct a, b. simpl. by intros -> -> -> -> -> ->. Qed.

Lemma count_due_stop (t : Q) (l : list MachineEvent) :
  count_due t (drop (count_due t l) l) = 0%nat.
Proof.
  induction l as [|ev l IH]; simpl; [done|].
  destruct (Qle_bool (time_min ev) t) eqn:Hle; simpl; [done|].
  by rewrite Hle.
Qed.

Lemma filter_unexpired_idemp (now : Q) (ts : gmap TransportKey Transport) :
  filter (λ kv, expired now kv.2 = false)
         (filter (λ kv, expired now kv.2 = false) ts)
  = filter (λ kv, expired now kv.2 = false) ts.
Proof.
  apply map_filter_id. intros k t H.
  by apply map_lookup_filter_Some in H as [_ H].
Qed.

(** X12.  [advance_to] is idempotent: calling it twice with the same
    target leaves the engine exactly as one call does, from any
    state. *)
Theorem advance_to_idempotent (target : Q) (c : SimulationController) :
  advance_to target (advance_to target c) = advance_to target c.
Proof.
  destruct (advance_to_spec target c) as (Hd & Ht & Hp & Hms & Hts & Ha & _).
  destruct (advance_to_spec target (advance_to target c))
    as (Hd' & Ht' & Hp' & Hms' & Hts' & Ha' & _).
  rewrite Hd in Ht', Hp', Hms', Hts', Ha'.
  rewrite Hp in Hp', Hms', Hts', Ha'.
  set (t := clamp_target (data c) target) in *.
  rewrite <- drop_drop, count_due_stop in Hp', Hms', Hts', Ha'.
  rewrite take_0 in Hms', Hts', Ha'. cbn [foldl] in Hms', Hts', Ha'.
  rewrite Nat.add_0_r in Hp'.
  rewrite Hts, filter_unexpired_idemp in Hts', Ha'.
  apply controller_eq; congruence.
Qed.

Lemma clamp_target_mono (d : SimulationData) (t1 t2 : Q) :
  (t1 <= t2)%Q → (clamp_target d t1 <= clamp_target d t2)%Q.
Proof.
  intros Hle. unfold clamp_target, py_min, py_max.
  destruct (Qlt_le_dec t1 (start_time d)), (Qlt_le_dec t2 (start_time d));
    repeat match goal with
           | |- context [Qlt_le_dec ?a ?b] => destruct (Qlt_le_dec a b)
           end; lra.
Qed.

(** X13.  Moving forward in two steps consumes the same events as
    moving in one: for [t1 <= t2], [advance_to t1] followed by
    [advance_to t2] ends with the clock, pointer and machine states of
    a single [advance_to t2], from any state; its registry and its
    snapshot hold entries of the single call's only (an entry evicted
    at [t1] may be missing). *)
Theorem advance_to_in_two_steps (t1 t2 : Q) (c : SimulationController) :
  (t1 <= t2)%Q →
  let a := advance_to t2 (advance_to t1 c) in
  let b := advance_to t2 c in
  current_time a = current_time b
  ∧ pointer a = pointer b
  ∧ machine_states a = machine_states b
  ∧ transports a ⊆ transports b
  ∧ active_transports a ⊆ active_transports b.
Proof.
  intros Hle.
  destruct (advance_to_spec t1 c) as (Hd1 & _ & Hp1 & Hms1 & Hts1 & _).
  destruct (advance_to_spec t2 (advance_to t1 c))
    as (_ & Hta & Hpa & Hmsa & Htsa & Haa & _).
  destruct (advance_to_spec t2 c) as (_ & Htb & Hpb & Hmsb & Htsb & Hab & _).
  rewrite Hd1 in Hta, Hpa, Hmsa, Htsa, Haa.
  rewrite Hp1 in Hpa, Hmsa, Htsa, Haa.
  pose proof (clamp_target_mono (data c) t1 t2 Hle) as Hclamp.
  set (u1 := clamp_target (data c) t1) in *.
  set (u2 := clamp_target (data c) t2) in *.
  set (rest := drop (pointer c) (events (data c))) in *.
  set (n1 := count_due u1 rest) in *.
  rewrite <- drop_drop in Hpa, Hmsa, Htsa, Haa.
  fold rest in Hpa, Hmsa, Htsa, Haa.
  assert (Hn : count_due u2 rest = (n1 + count_due u2 (drop n1 rest))%nat).
  { apply count_due_split; [apply count_due_le|].
    eapply Forall_impl; [apply count_due_prefix|]. simpl. intros ev Hev.
    lra. }
  assert (Hsub : filter (λ kv, expired u2 kv.2 = false)
                   (foldl (λ ts ev, registry_step ev ts)
                      (transports (advance_to t1 c))
                      (take (count_due u2 (drop n1 rest)) (drop n1 rest)))
                 ⊆ filter (λ kv, expired u2 kv.2 = false)
                     (foldl (λ ts ev, registry_step ev ts) (transports c)
                        (take (count_due u2 rest) rest))).
  { rewrite Hn, <- take_take_drop, foldl_app.
    apply map_filter_subseteq_mono, replay_registry_mono.
    rewrite Hts1. apply map_filter_subseteq. }
  cbv zeta. rewrite Hta, Htb, Hpa, Hpb, Hmsa, Hmsb, Htsa, Htsb, Haa, Hab.
  split; [done|]. split; [rewrite Hn; lia|]. split.
  - rewrite Hms1, Hn, <- take_take_drop, foldl_app. done.
  - split; [done|]. by apply map_fmap_mono.
Qed.

Lemma advance_to_in_two_steps_witness :
  let a := advance_to 12 (advance_to 6 Scenario.fresh) in
  let b := advance_to 12 Scenario.fresh in
  current_time a = current_time b
  ∧ pointer a = pointer b
  ∧ machine_states a = machine_states b
  ∧ transports a ⊆ transports b
  ∧ active_transports a ⊆ active_transports b.
Proof.
  apply (advance_to_in_two_steps 6 12 Scenario.fresh). discriminate.
Defined.

Lemma count_due_sorted (t : Q) (l : list MachineEvent) (i : nat)
    (ev : MachineEvent) :
  StronglySorted time_le l → l !! i = Some ev →
  (i < count_due t l)%nat ↔ (time_min ev <= t)%Q.
Proof.
  intros Hs. revert i. induction Hs as [|x l Hs IH Hx]; intros i Hev.
  - by rewrite lookup_nil in Hev.
  - simpl. destruct (Qle_bool (time_min x) t) eqn:Hle.
    + apply Qle_bool_true in Hle. destruct i as [|i]; simpl in Hev.
      * injection Hev as <-. split; [done|lia].
      * rewrite <- (IH i Hev). lia.
    + apply Qle_bool_false in Hle. split; [lia|]. intros Ht. exfalso.
      destruct i as [|i]; simpl in Hev.
      * injection Hev as <-. lra.
      * assert (Hxe : time_le x ev).
        { apply (proj1 (Forall_forall _ _) Hx).
          by apply list_elem_of_lookup_2 in Hev. }
        unfold time_le in Hxe. lra.
Qed.

(** X14.  On a log built by [SimulationData], after a [seek] from a
    state reached by forward-only calls, the consumed events are
    exactly the events that are due: an event of the log lies before
    the pointer if and only if its time is at most the current time. *)
Theorem seek_consumes_due_events (evs : list MachineEvent)
    (d : SimulationData) (c : SimulationController) (target : Q) :
  SimulationData_init evs = inr d → forward_reachable d c →
  ∀ i ev, events d !! i = Some ev →
    (i < pointer (seek target c))%nat
    ↔ (time_min ev <= current_time (seek target c))%Q.
Proof.
  intros Hd Hc i ev Hev.
  destruct (seek_forward_reachable d c target (time_range evs d Hd) Hc)
    as (-> & -> & _).
  destruct (advance_to_init_spec d target) as (-> & -> & _).
  apply count_due_sorted; [|done]. by apply (data_events_sorted evs).
Qed.

Lemma seek_consumes_due_events_witness :
  let c := seek 12 (seek 3 Scenario.fresh) in
  ((2 < pointer c)%nat ↔ (10 <= current_time c)%Q)
  ∧ ((3 < pointer c)%nat ↔ (15 <= current_time c)%Q).
Proof.
  assert (Hf : forward_reachable Scenario.sim (seek 3 Scenario.fresh))
    by apply forward_seek, forward_init.
  split.
  - apply (seek_consumes_due_events Scenario.log Scenario.sim
             (seek 3 Scenario.fresh) 12 eq_refl Hf 2
             (Scenario.ev 10 "M1" "PROC_END" EmptyString None)).
    vm_compute. reflexivity.
  - apply (seek_consumes_due_events Scenario.log Scenario.sim
             (seek 3 Scenario.fresh) 12 eq_refl Hf 3
             (Scenario.ev 15 "M2" "TRANSPORT_END" "P1" None)).
    vm_compute. reflexivity.
Defined.

(** ** Single events, continued *)

(** X15.  Applying an event touches only what belongs to it: the
    data, the clock, the pointer and the snapshot are left alone, the
    entry of every other machine is unchanged, the entry of the
    event's machine exists afterwards with the event's name as
    [last_event], the registry entry of every other transport key is
    unchanged, and an event whose name does not start with
    [TRANSPORT_] leaves the whole transport registry unchanged. *)
Theorem apply_event_is_local (ev : MachineEvent)
    (c : SimulationController) :
  let c' := apply_event ev c in
  (data c' = data c ∧ current_time c' = current_time c
   ∧ pointer c' = pointer c
   ∧ active_transports c' = active_transports c)
  ∧ (∀ m, m ≠ machine ev →
          machine_states c' !! m = machine_states c !! m)
  ∧ (∃ st, machine_states c' !! machine ev = Some st
           ∧ last_event st = Some (event ev))
  ∧ (∀ k, k ≠ transport_key ev → transports c' !! k = transports c !! k)
  ∧ (String.prefix "TRANSPORT_" (event ev) = false →
     transports c' = transports c).
Proof.
  cbv zeta. split; [apply apply_event_frame|].
  rewrite apply_event_machine_states, apply_event_transports.
  split; [|split; [|split]].
  - intros m Hm. unfold states_step. by rewrite lookup_insert_ne.
  - unfold states_step. rewrite lookup_insert_eq. eexists. split; [done|].
    by destruct (update_state_fields ev
      (default (MachineState_new (machine ev))
               (machine_states c !! machine ev))) as (_ & -> & _).
  - intros k Hk. unfold registry_step.
    destruct (String.eqb (event ev) "TRANSPORT_START");
      [by rewrite lookup_insert_ne|].
    destruct (String.eqb (event ev) "TRANSPORT_END").
    { destruct (transports c !! transport_key ev); [|done].
      by rewrite lookup_insert_ne. }
    destruct (String.eqb (event ev) "TRANSPORT_CANCEL"); [|done].
    by rewrite lookup_delete_ne.
  - intros Hp. unfold registry_step. remember (event ev) as e eqn:He.
    case_names e; try discriminate Hp. done.
Qed.

Lemma apply_event_is_local_witness :
  String.prefix "TRANSPORT_" (event (Samples.queue_event "QUEUE_IN")) = false
  ∧ transports (apply_event (Samples.queue_event "QUEUE_IN") Scenario.s7)
    = transports Scenario.s7.
Proof.
  split; [reflexivity|].
  apply (apply_event_is_local (Samples.queue_event "QUEUE_IN") Scenario.s7).
  reflexivity.
Defined.

Lemma registry_step_start (ev : MachineEvent)
    (ts : gmap TransportKey Transport) :
  event ev = "TRANSPORT_START" →
  registry_step ev ts = <[transport_key ev := started ev]> ts.
Proof. intros He. unfold registry_step. by rewrite He. Qed.

Lemma registry_step_end (ev : MachineEvent)
    (ts : gmap TransportKey Transport) :
  event ev = "TRANSPORT_END" →
  registry_step ev ts
  = match ts !! transport_key ev with
    | Some t => <[transport_key ev := ended ev t]> ts
    | None => ts
    end.
Proof. intros He. unfold registry_step. by rewrite He. Qed.

Lemma registry_step_cancel (ev : MachineEvent)
    (ts : gmap TransportKey Transport) :
  event ev = "TRANSPORT_CANCEL" →
  registry_step ev ts = delete (transport_key ev) ts.
Proof. intros He. unfold registry_step. by rewrite He. Qed.

(** X16.  A start event and a later event of the same transport key
    compose as follows.  After the start and a cancel, the key has no
    entry.  After the start and an end, the entry has the ids, the
    source and the start time given by the start event, the end time
    of the end event, and as destination the start event's
    [to_machine] when it is set and non-empty, otherwise the end
    event's machine or, when that is empty, its [to_machine]. *)
Theorem start_then_end_or_cancel (s e : MachineEvent)
    (c : SimulationController) :
  event s = "TRANSPORT_START" → transport_key e = transport_key s →
  (event e = "TRANSPORT_CANCEL" →
     transports (apply_event e (apply_event s c)) !! transport_key s = None)
  ∧ (event e = "TRANSPORT_END" →
     transports (apply_event e (apply_event s c)) !! transport_key s
     = Some {| t_product_id := product_id s;
               t_entity_id := entity_id s;
               t_from_machine := or_opt_str (from_machine s) (machine s);
               t_to_machine :=
                 if truthy_opt (to_machine s) then to_machine s
                 else or_str_opt (machine e) (to_machine e);
               t_start_time := time_min s;
               t_end_time := Some (time_min e) |}).
Proof.
  intros Hs Hkey. rewrite !apply_event_transports.
  rewrite (registry_step_start s) by done. split; intros He.
  - rewrite (registry_step_cancel e) by done.
    by rewrite Hkey, lookup_delete_eq.
  - rewrite (registry_step_end e) by done.
    rewrite Hkey, lookup_insert_eq, lookup_insert_eq.
    unfold ended, started. simpl.
    by destruct (truthy_opt (to_machine s)).
Qed.

Lemma start_then_end_or_cancel_witness :
  transports (apply_event Pairing.drop_it
                (apply_event Pairing.leave Scenario.fresh))
    !! transport_key Pairing.leave = None
  ∧ t_to_machine
      <$> transports (apply_event Pairing.arrive
                        (apply_event Pairing.leave Scenario.fresh))
            !! transport_key Pairing.leave
    = Some (Some "M3").
Proof.
  split.
  - apply (start_then_end_or_cancel Pairing.leave Pairing.drop_it
             Scenario.fresh); reflexivity.
  - rewrite (proj2 (start_then_end_or_cancel Pairing.leave Pairing.arrive
                      Scenario.fresh eq_refl eq_refl) eq_refl).
    reflexivity.
Defined.

(** ** The layout of the scene *)

Section fold_insert.
Context {K V X : Type} `{Countable K}.
Variables (key : X → K) (val : X → V).

Lemma fold_insert_other (l : list X) (acc : gmap K V) (k : K) :
  (∀ x, x ∈ l → key x ≠ k) →
  foldl (λ acc x, <[key x := val x]> acc) acc l !! k = acc !! k.
Proof.
  revert acc. induction l as [|y l IH]; intros acc Hk; simpl; [done|].
  rewrite IH.
  - apply lookup_insert_ne, Hk. by left.
  - intros x Hx. apply Hk. by right.
Qed.

Lemma fold_insert_elem (l : list X) (acc : gmap K V) (x : X) :
  NoDup (key <$> l) → x ∈ l →
  foldl (λ acc x, <[key x := val x]> acc) acc l !! key x = Some (val x).
Proof.
  revert acc. induction l as [|y l IH]; intros acc Hnd Hx; simpl.
  - by apply elem_of_nil in Hx.
  - rewrite fmap_cons in Hnd. apply NoDup_cons in Hnd as [Hy Hnd].
    apply elem_of_cons in Hx as [-> | Hx]; [|by apply IH].
    rewrite fold_insert_other; [apply lookup_insert_eq|].
    intros x Hx Heq. apply Hy. rewrite <- Heq.
    by apply list_elem_of_fmap_2.
Qed.

Lemma fold_insert_is_Some (l : list X) (acc : gmap K V) (k : K) :
  is_Some (foldl (λ acc x, <[key x := val x]> acc) acc l !! k)
  ↔ is_Some (acc !! k) ∨ k ∈ key <$> l.
Proof.
  revert acc. induction l as [|y l IH]; intros acc; simpl.
  - rewrite elem_of_nil. tauto.
  - rewrite IH, lookup_insert, elem_of_cons.
    case_decide as Hk.
    + subst k. split; intros _; [right; by left|left; by eexists].
    + split.
      * intros [Ha|Hl]; [by left|right; by right].
      * intros [Ha|[Heq|Hl]]; [by left|by subst|by right].
Qed.
End fold_insert.

Lemma ceil_sqrt_covers (n : nat) :
  (n ≤ View.ceil_sqrt n * View.ceil_sqrt n)%nat.
Proof.
  unfold View.ceil_sqrt. pose proof (Nat.sqrt_spec n (Nat.le_0_l n)) as [_ Hr].
  destruct (Nat.eqb_spec (Nat.sqrt n * Nat.sqrt n) n); simpl; lia.
Qed.

Lemma imap_pair_elem {A} (l : list A) (i : nat) (x : A) :
  (i, x) ∈ imap pair l ↔ l !! i = Some x.
Proof.
  rewrite list_elem_of_lookup. split.
  - intros [j Hj]. rewrite list_lookup_imap in Hj.
    destruct (l !! j) eqn:Hlj; simpl in Hj; [|done].
    by injection Hj as <- <-.
  - intros Hx. exists i. by rewrite list_lookup_imap, Hx.
Qed.

Lemma imap_pair_snd {A} (l : list A) : (imap pair l).*2 = l.
Proof.
  apply list_eq. intros i. rewrite list_lookup_fmap, list_lookup_imap.
  by destruct (l !! i).
Qed.

(** The cell of the grid given to the machine of rank [i]. *)
Lemma build_layout_lookup (machines : list string) (i : nat) (m : string) :
  NoDup machines → sorted_strs machines !! i = Some m →
  let columns := Nat.max 1 (View.ceil_sqrt (length machines)) in
  View.build_layout machines !! m
  = Some {| View.pt_x := inject_Z (Z.of_nat (i mod columns)) * (160 + 80);
            View.pt_y := inject_Z (Z.of_nat (i / columns)) * (80 + 80) |}.
Proof.
  intros Hnd Hi columns. unfold View.build_layout.
  destruct machines as [|m0 ms]; [by destruct i|].
  cbv beta iota zeta. set (machines := m0 :: ms) in *. fold columns.
  apply (fold_insert_elem snd
    (λ im : nat * string,
       {| View.pt_x := inject_Z (Z.of_nat (im.1 mod columns))
                       * (View.MACHINE_width + 80);
          View.pt_y := inject_Z (Z.of_nat (im.1 / columns))
                       * (View.MACHINE_height + 80) |})
    (imap pair (sorted_strs machines)) ∅ (i, m)).
  - change (snd <$> imap pair (sorted_strs machines))
      with ((imap pair (sorted_strs machines)).*2).
    rewrite imap_pair_snd. by rewrite sorted_strs_perm.
  - by apply imap_pair_elem.
Qed.

Lemma build_layout_dom (machines : list string) (m : string) :
  is_Some (View.build_layout machines !! m) ↔ m ∈ machines.
Proof.
  unfold View.build_layout. destruct machines as [|m0 ms].
  { rewrite lookup_empty, elem_of_nil. split; [by intros [? ?]|done]. }
  cbv beta iota zeta. set (machines := m0 :: ms) in *.
  rewrite (fold_insert_is_Some snd), lookup_empty.
  change (snd <$> imap pair (sorted_strs machines))
    with ((imap pair (sorted_strs machines)).*2).
  rewrite imap_pair_snd, elem_of_sorted_strs. split; [|by right].
  by intros [[? ?]|?].
Qed.

(** X17.  The layout gives a position to every machine it is given
    and to nothing else, duplicates or not; from no machines it is
    empty. *)
Theorem layout_places_the_machines (machines : list string) (m : string) :
  View.build_layout [] = ∅
  ∧ (is_Some (View.build_layout machines !! m) ↔ m ∈ machines).
Proof. split; [done|apply build_layout_dom]. Qed.

(** X18.  For machines without duplicates the layout is a square
    grid filled row by row in sorted order: with [columns] the least
    number whose square covers the machines (at least 1), the machine
    of rank [i] sits in column [i mod columns] and row [i / columns],
    both below [columns], at [(column * 240, row * 160)]. *)
Theorem layout_is_a_square_grid (machines : list string) (i : nat)
    (m : string) :
  NoDup machines → sorted_strs machines !! i = Some m →
  let columns := Nat.max 1 (View.ceil_sqrt (length machines)) in
  (length machines ≤ columns * columns)%nat
  ∧ (i mod columns < columns)%nat
  ∧ (i / columns < columns)%nat
  ∧ View.build_layout machines !! m
    = Some {| View.pt_x := inject_Z (Z.of_nat (i mod columns)) * (160 + 80);
              View.pt_y := inject_Z (Z.of_nat (i / columns)) * (80 + 80) |}.
Proof.
  intros Hnd Hi columns.
  assert (Hcover : (length machines ≤ columns * columns)%nat).
  { pose proof (ceil_sqrt_covers (length machines)). unfold columns. nia. }
  assert (Hlen : (i < length machines)%nat).
  { apply lookup_lt_Some in Hi.
    by rewrite (Permutation_length (sorted_strs_perm machines)) in Hi. }
  split; [done|]. split; [apply Nat.mod_upper_bound; unfold columns; lia|].
  split; [apply Nat.Div0.div_lt_upper_bound; lia|].
  by apply build_layout_lookup.
Qed.

Lemma layout_is_a_square_grid_witness :
  View.build_layout ["b"; "c"; "a"; "e"; "d"] !! "d"
  = Some {| View.pt_x := inject_Z 0 * (160 + 80);
            View.pt_y := inject_Z 1 * (80 + 80) |}.
Proof.
  apply (layout_is_a_square_grid ["b"; "c"; "a"; "e"; "d"] 3 "d");
    [|reflexivity].
  apply (NoDup_ListNoDup _). repeat constructor; simpl; intuition discriminate.
Defined.

Lemma cell_step (a b : nat) (s : Q) :
  (0 <= s)%Q → (a < b)%nat →
  (inject_Z (Z.of_nat a) * s + s <= inject_Z (Z.of_nat b) * s)%Q.
Proof.
  intros Hs Hab.
  assert (H1 : (inject_Z (Z.of_nat a) + 1 <= inject_Z (Z.of_nat b))%Q).
  { change 1%Q with (inject_Z 1). rewrite <- inject_Z_plus.
    rewrite <- Zle_Qle. lia. }
  assert (H2 : ((inject_Z (Z.of_nat a) + 1) * s
                <= inject_Z (Z.of_nat b) * s)%Q).
  { by apply Qmult_le_compat_r. }
  lra.
Qed.

(** X19.  The layout never puts two machines on top of each other:
    for machines without duplicates, two different machines are at
    least 240 apart horizontally or 160 apart vertically, more than
    the 160 by 80 of a machine item. *)
Theorem layout_keeps_machines_apart (machines : list string)
    (m1 m2 : string) (p1 p2 : View.QPointF) :
  NoDup machines → m1 ≠ m2 →
  View.build_layout machines !! m1 = Some p1 →
  View.build_layout machines !! m2 = Some p2 →
  (View.pt_x p1 + 240 <= View.pt_x p2)%Q
  ∨ (View.pt_x p2 + 240 <= View.pt_x p1)%Q
  ∨ (View.pt_y p1 + 160 <= View.pt_y p2)%Q
  ∨ (View.pt_y p2 + 160 <= View.pt_y p1)%Q.
Proof.
  intros Hnd Hne H1 H2.
  assert (Hrank : ∀ m p, View.build_layout machines !! m = Some p →
            ∃ i, sorted_strs machines !! i = Some m).
  { intros m p Hp. apply list_elem_of_lookup, elem_of_sorted_strs.
    apply (build_layout_dom machines m). by eexists. }
  destruct (Hrank m1 p1 H1) as [i Hi], (Hrank m2 p2 H2) as [j Hj].
  rewrite (build_layout_lookup machines i m1 Hnd Hi) in H1.
  rewrite (build_layout_lookup machines j m2 Hnd Hj) in H2.
  injection H1 as <-. injection H2 as <-. simpl.
  set (c := Nat.max 1 (View.ceil_sqrt (length machines))).
  assert (Hc : (0 < c)%nat) by (unfold c; lia).
  assert (Hij : i ≠ j) by (intros ->; congruence).
  pose proof (Nat.div_mod_eq i c) as Hdi.
  pose proof (Nat.div_mod_eq j c) as Hdj.
  assert (Hs240 : (0 <= 160 + 80)%Q) by lra.
  assert (Hs160 : (0 <= 80 + 80)%Q) by lra.
  destruct (Nat.lt_total (i mod c) (j mod c)) as [Hlt|[Heq|Hlt]].
  - left. pose proof (cell_step _ _ (160 + 80) Hs240 Hlt). lra.
  - right. right.
    destruct (Nat.lt_total (i / c) (j / c)) as [Hlt|[Heq'|Hlt]].
    + left. pose proof (cell_step _ _ (80 + 80) Hs160 Hlt). lra.
    + exfalso. apply Hij. nia.
    + right. pose proof (cell_step _ _ (80 + 80) Hs160 Hlt). lra.
  - right. left. pose proof (cell_step _ _ (160 + 80) Hs240 Hlt). lra.
Qed.

Lemma layout_keeps_machines_apart_witness :
  let p1 := {| View.pt_x := 0; View.pt_y := 0 |} in
  let p2 := {| View.pt_x := 0; View.pt_y := 160 |} in
  (View.pt_x p1 + 240 <= View.pt_x p2)%Q
  ∨ (View.pt_x p2 + 240 <= View.pt_x p1)%Q
  ∨ (View.pt_y p1 + 160 <= View.pt_y p2)%Q
  ∨ (View.pt_y p2 + 160 <= View.pt_y p1)%Q.
Proof.
  apply (layout_keeps_machines_apart ["b"; "c"; "a"; "e"; "d"] "a" "d");
    [|discriminate|reflexivity|reflexivity].
  apply (NoDup_ListNoDup _). repeat constructor; simpl; intuition discriminate.
Defined.

(** ** Tokens *)

Lemma progress_unit (t : Transport) (clock : Q) :
  (0 <= progress t clock)%Q ∧ (progress t clock <= 1)%Q.
Proof.
  unfold progress. destruct (t_end_time t) as [e|]; [|lra]. cbv zeta.
  destruct (Qle_bool (e - t_start_time t) 0); [lra|].
  rewrite clamp_max_min. apply clamp_unit.
Qed.

(** X20.  When the source and the destination of a transport are both
    placed, its token is drawn on the segment that joins the centres
    of the two machine items, at the fraction given by the progress of
    the transport: at the source's centre for progress 0 and at the
    destination's for progress 1. *)
Theorem token_moves_between_machines (t : Transport)
    (positions : gmap string View.QPointF) (clock : Q)
    (tok : View.TransportItem) (f g : string) (s e : View.QPointF) :
  t_from_machine t = Some f → t_to_machine t = Some g →
  positions !! f = Some s → positions !! g = Some e →
  let pos := View.tk_pos (View.update_progress t positions clock tok) in
  let p := progress t clock in
  (0 <= p)%Q ∧ (p <= 1)%Q
  ∧ (View.pt_x pos
     == (1 - p) * (View.pt_x s + 80) + p * (View.pt_x e + 80))%Q
  ∧ (View.pt_y pos
     == (1 - p) * (View.pt_y s + 40) + p * (View.pt_y e + 40))%Q.
Proof.
  intros Hf Hg Hs He. cbv zeta.
  destruct (progress_unit t clock) as [Hp0 Hp1].
  split; [done|]. split; [done|].
  unfold View.update_progress. rewrite Hf, Hg. simpl. rewrite Hs, He.
  simpl. unfold View.MACHINE_width, View.MACHINE_height. split; field.
Qed.

Lemma token_moves_between_machines_witness :
  let positions := View.build_layout (machines Scenario.sim) in
  let pos := View.tk_pos (View.update_progress Scenario.arrived positions
                            10 View.TransportItem_init) in
  let p := progress Scenario.arrived 10 in
  (0 <= p)%Q ∧ (p <= 1)%Q
  ∧ (View.pt_x pos == (1 - p) * (0 + 80) + p * (240 + 80))%Q
  ∧ (View.pt_y pos == (1 - p) * (0 + 40) + p * (0 + 40))%Q.
Proof.
  apply (token_moves_between_machines Scenario.arrived
           (View.build_layout (machines Scenario.sim)) 10
           View.TransportItem_init "M1" "M2"
           {| View.pt_x := 0; View.pt_y := 0 |}
           {| View.pt_x := 240; View.pt_y := 0 |}); reflexivity.
Defined.

(** X21.  A transport whose destination is unset or empty, with no
    position under it, is drawn at its source for every clock value:
    at the centre of the source's item when the source is placed, and
    at the centre of an item placed at the origin otherwise. *)
Theorem token_without_destination (t : Transport)
    (positions : gmap string View.QPointF) (clock : Q)
    (tok : View.TransportItem) :
  truthy_opt (t_to_machine t) = false →
  View.get_position positions (t_to_machine t) = None →
  let pos := View.tk_pos (View.update_progress t positions clock tok) in
  let src := default View.origin
               (View.get_position positions (t_from_machine t)) in
  (View.pt_x pos == View.pt_x src + 80)%Q
  ∧ (View.pt_y pos == View.pt_y src + 40)%Q.
Proof.
  intros Hto Hpos. cbv zeta. unfold View.update_progress.
  rewrite Hpos. unfold or_opt. rewrite Hto.
  destruct (View.get_position positions (t_from_machine t)) as [s|];
    simpl.
  - unfold View.MACHINE_width, View.MACHINE_height. split; field.
  - destruct (truthy_opt (t_from_machine t)); simpl;
      unfold View.MACHINE_width, View.MACHINE_height; split; field.
Qed.

Lemma token_without_destination_witness :
  let t := {| t_product_id := "P1"; t_entity_id := EmptyString;
              t_from_machine := Some "M2"; t_to_machine := None;
              t_start_time := 5; t_end_time := Some 15%Q |} in
  let pos := View.tk_pos
               (View.update_progress t
                  (View.build_layout (machines Scenario.sim)) 9
                  View.TransportItem_init) in
  (View.pt_x pos == 240 + 80)%Q ∧ (View.pt_y pos == 0 + 40)%Q.
Proof.
  apply (token_without_destination
           {| t_product_id := "P1"; t_entity_id := EmptyString;
              t_from_machine := Some "M2"; t_to_machine := None;
              t_start_time := 5; t_end_time := Some 15%Q |}
           (View.build_layout (machines Scenario.sim)) 9
           View.TransportItem_init); reflexivity.
Defined.

(** ** The scene in step with the engine *)

Lemma sync_items_list (l : list (string * MachineState))
    (items : gmap string View.MachineGraphicsItem) (m : string) :
  NoDup l.*1 →
  foldl (λ items (ms : string * MachineState),
           match items !! ms.1 with
           | Some item => <[ms.1 := View.update_state ms.2 item]> items
           | None => items
           end) items l !! m
  = (λ item,
       match (list_to_map l : gmap string MachineState) !! m with
       | Some st => View.update_state st item
       | None => item
       end) <$> items !! m.
Proof.
  revert items. induction l as [|[k st] l IH]; intros items Hnd.
  - simpl. rewrite lookup_empty. by destruct (items !! m).
  - rewrite fmap_cons in Hnd. apply NoDup_cons in Hnd as [Hk Hnd].
    cbn [foldl]. rewrite (IH _ Hnd). cbn [fst snd list_to_map foldr].
    destruct (decide (k = m)) as [->|Hne].
    + rewrite lookup_insert_eq.
      rewrite (not_elem_of_list_to_map_1 _ _ Hk).
      destruct (items !! m) as [item|] eqn:Hitem.
      * by rewrite lookup_insert_eq.
      * by rewrite Hitem.
    + rewrite (lookup_insert_ne _ k m) by done.
      destruct (items !! k); [by rewrite lookup_insert_ne|done].
Qed.

Lemma sync_tokens_list (l : list (TransportKey * Transport))
    (positions : gmap string View.QPointF) (clock : Q)
    (acc : gmap TransportKey View.TransportItem * gset TransportKey)
    (k : TransportKey) :
  NoDup l.*1 →
  let loop :=
    foldl (λ (acc : gmap TransportKey View.TransportItem
                    * gset TransportKey) (kt : TransportKey * Transport),
             let token :=
               match acc.1 !! kt.1 with
               | Some token => token
               | None => View.TransportItem_init
               end in
             (<[kt.1 := View.update_progress kt.2 positions clock token]>
                acc.1,
              {[kt.1]} ∪ acc.2)) acc l in
  loop.1 !! k
  = match (list_to_map l : gmap TransportKey Transport) !! k with
    | Some t =>
        Some (View.update_progress t positions clock
                View.TransportItem_init)
    | None => acc.1 !! k
    end
  ∧ (k ∈ loop.2 ↔ k ∈ l.*1 ∨ k ∈ acc.2).
Proof.
  revert acc. induction l as [|[k0 t0] l IH]; intros acc Hnd.
  - simpl. rewrite lookup_empty, elem_of_nil. split; [done|tauto].
  - rewrite fmap_cons in Hnd. apply NoDup_cons in Hnd as [Hk Hnd].
    cbn [foldl]. cbv zeta. cbv zeta in IH.
    destruct (IH (<[k0 := View.update_progress t0 positions clock
                            match acc.1 !! k0 with
                            | Some token => token
                            | None => View.TransportItem_init
                            end]> acc.1, {[k0]} ∪ acc.2) Hnd)
      as [IH1 IH2].
    cbn [fst snd] in *. rewrite IH1, IH2. cbn [list_to_map foldr fst snd].
    split.
    + destruct (decide (k0 = k)) as [->|Hne].
      * rewrite lookup_insert_eq.
        by rewrite (not_elem_of_list_to_map_1 _ _ Hk), lookup_insert_eq.
      * by rewrite !(lookup_insert_ne _ k0 k).
    + rewrite fmap_cons, elem_of_cons, elem_of_union, elem_of_singleton.
      cbn [fst]. tauto.
Qed.

Lemma fold_delete_lookup (ks : list TransportKey)
    (m : gmap TransportKey View.TransportItem) (k : TransportKey) :
  foldl (λ tokens key, delete key tokens) m ks !! k
  = if decide (k ∈ ks) then None else m !! k.
Proof.
  revert m. induction ks as [|k0 ks IH]; intros m; cbn [foldl].
  - destruct (decide (k ∈ [])) as [H|H]; [by apply elem_of_nil in H|done].
  - rewrite IH. destruct (decide (k ∈ ks)) as [Hin|Hout].
    + rewrite decide_True; [done|by right].
    + destruct (decide (k0 = k)) as [->|Hne].
      * rewrite decide_True by by left. apply lookup_delete_eq.
      * rewrite lookup_delete_ne by done. rewrite decide_False; [done|].
        intros H. apply elem_of_cons in H as [Heq|H]; [by subst|done].
Qed.

Lemma sync_states_tokens (states : gmap string MachineState)
    (transports : gmap TransportKey Transport) (clock : Q)
    (scene : View.SimulationScene) :
  View.transport_items (View.sync_states states transports clock scene)
  = (λ t, View.update_progress t (View.machine_positions scene) clock
            View.TransportItem_init) <$> transports.
Proof.
  apply map_eq. intros k. rewrite lookup_fmap. unfold View.sync_states.
  cbn [View.transport_items]. rewrite fold_delete_lookup.
  destruct (sync_tokens_list (map_to_list transports)
              (View.machine_positions scene) clock
              (View.transport_items scene, ∅) k
              (NoDup_fst_map_to_list transports)) as [H1 H2].
  cbv zeta in H1, H2. cbn [fst snd] in H1, H2.
  rewrite list_to_map_to_list in H1.
  case_decide as Hdel.
  - apply elem_of_elements, elem_of_difference in Hdel as [Hold Hnew].
    rewrite H2 in Hnew.
    destruct (transports !! k) as [t|] eqn:Hk; [|done].
    exfalso. apply Hnew. left.
    apply list_elem_of_fmap. exists (k, t). split; [done|].
    by apply elem_of_map_to_list.
  - rewrite H1. destruct (transports !! k) as [t|] eqn:Hk; [done|].
    simpl. destruct (View.transport_items scene !! k) as [tok|] eqn:Htok;
      [|done].
    exfalso. apply Hdel. apply elem_of_elements, elem_of_difference.
    split; [apply elem_of_dom; by eexists|]. rewrite H2.
    intros [Hin|Hin]; [|by apply elem_of_empty in Hin].
    apply list_elem_of_fmap in Hin as ([k' t'] & -> & Hin).
    apply elem_of_map_to_list in Hin. simpl in Hk. congruence.
Qed.

Lemma sync_states_items (states : gmap string MachineState)
    (transports : gmap TransportKey Transport) (clock : Q)
    (scene : View.SimulationScene) (m : string) :
  View.machine_items (View.sync_states states transports clock scene) !! m
  = (λ item,
       match states !! m with
       | Some st => View.update_state st item
       | None => item
       end) <$> View.machine_items scene !! m.
Proof.
  unfold View.sync_states. cbn [View.machine_items].
  rewrite (sync_items_list _ _ m (NoDup_fst_map_to_list states)).
  by rewrite list_to_map_to_list.
Qed.

(** X22.  After [sync_states] the scene holds a token for each
    transport it was given and for nothing else, whatever tokens it
    held before; each token is where [update_progress] puts it for
    that transport and clock. *)
Theorem tokens_follow_the_snapshot (states : gmap string MachineState)
    (transports : gmap TransportKey Transport) (clock : Q)
    (scene : View.SimulationScene) :
  View.transport_items (View.sync_states states transports clock scene)
  = (λ t, View.update_progress t (View.machine_positions scene) clock
            View.TransportItem_init) <$> transports
  ∧ ∀ k, is_Some (View.transport_items
                    (View.sync_states states transports clock scene) !! k)
         ↔ is_Some (transports !! k).
Proof.
  split; [apply sync_states_tokens|]. intros k.
  by rewrite sync_states_tokens, lookup_fmap, fmap_is_Some.
Qed.

(** X23.  After [sync_states] the scene has the machine items it had
    before, no more and no fewer; an item whose machine has a state
    shows that state (colour, queue text, indicator), an item whose
    machine has none is left as it was; and the machine positions are
    unchanged. *)
Theorem items_show_the_states (states : gmap string MachineState)
    (transports : gmap TransportKey Transport) (clock : Q)
    (scene : View.SimulationScene) (m : string) :
  let scene' := View.sync_states states transports clock scene in
  View.machine_positions scene' = View.machine_positions scene
  ∧ View.machine_items scene' !! m
    = (λ item,
         match states !! m with
         | Some st => View.update_state st item
         | None => item
         end) <$> View.machine_items scene !! m.
Proof. cbv zeta. split; [done|]. apply sync_states_items. Qed.

Lemma reachable_knows_machines (d : SimulationData)
    (c : SimulationController) (m : string) :
  reachable d c → m ∈ machines d → is_Some (machine_states c !! m).
Proof.
  intros Hc Hm. destruct (reachable_sound d c Hc) as (_ & Hp & -> & _).
  revert Hp. generalize (pointer c).
  apply (replay_states_ind d (λ _ ms, is_Some (ms !! m))).
  - exists (MachineState_new m). by apply fresh_states_lookup_iff.
  - intros i ev ms _ H. unfold states_step. rewrite lookup_insert.
    by case_decide.
Qed.

Lemma color_key_has_colour (st : MachineState) :
  is_Some (View.COLORS !! color_key st).
Proof.
  unfold color_key.
  destruct (String.eqb (status st) "breakdown"); [by eexists|].
  destruct (String.eqb (status st) "processing"); [by eexists|].
  destruct (0 <? queue st); by eexists.
Qed.

(** X24.  A scene built on the data of a log and synchronised with a
    reachable state of the engine shows that state: it has one item
    per machine of the log, labelled with the machine, placed at the
    machine's cell of the layout, painted with the colour that
    [COLORS] gives for the colour key of the machine's state (the
    fallback colour is never needed) and showing its queue; and it has
    one token per transport of the snapshot. *)
Theorem scene_shows_the_engine (d : SimulationData)
    (c : SimulationController) :
  reachable d c →
  let scene :=
    View.sync_states (machine_states c) (active_transports c)
      (current_time c) (View.SimulationScene_init d) in
  (∀ m, is_Some (View.machine_items scene !! m) ↔ m ∈ machines d)
  ∧ (∀ m, m ∈ machines d →
       ∃ st item,
         machine_states c !! m = Some st
         ∧ View.machine_items scene !! m = Some item
         ∧ View.mg_label item = m
         ∧ View.build_layout (machines d) !! m = Some (View.mg_pos item)
         ∧ View.COLORS !! color_key st = Some (View.mg_brush item)
         ∧ View.mg_indicator item = View.mg_brush item
         ∧ View.mg_queue_text item = "Queue: " +:+ pretty (queue st))
  ∧ ∀ k, is_Some (View.transport_items scene !! k)
         ↔ is_Some (active_transports c !! k).
Proof.
  intros Hc scene.
  assert (Hitem : ∀ m, View.machine_items (View.SimulationScene_init d) !! m
            = View.MachineGraphicsItem_init m
              <$> View.build_layout (machines d) !! m).
  { intros m. unfold View.SimulationScene_init. cbn [View.machine_items].
    rewrite map_lookup_imap. by destruct (View.build_layout _ !! m). }
  split; [|split].
  - intros m. unfold scene.
    rewrite sync_states_items, fmap_is_Some, Hitem, fmap_is_Some.
    apply build_layout_dom.
  - intros m Hm.
    destruct (reachable_knows_machines d c m Hc Hm) as [st Hst].
    destruct (proj2 (build_layout_dom (machines d) m) Hm) as [p Hp].
    exists st. eexists. split; [done|]. unfold scene.
    rewrite sync_states_items, Hitem, Hp, Hst. simpl.
    split; [reflexivity|]. simpl. split; [done|]. split; [done|].
    destruct (color_key_has_colour st) as [col Hcol]. rewrite Hcol.
    simpl. done.
  - intros k. unfold scene.
    by rewrite sync_states_tokens, lookup_fmap, fmap_is_Some.
Qed.

Lemma scene_shows_the_engine_witness :
  let scene :=
    View.sync_states (machine_states Scenario.s7)
      (active_transports Scenario.s7) (current_time Scenario.s7)
      (View.SimulationScene_init Scenario.sim) in
  (∀ m, is_Some (View.machine_items scene !! m)
        ↔ m ∈ machines Scenario.sim)
  ∧ (∀ m, m ∈ machines Scenario.sim →
       ∃ st item,
         machine_states Scenario.s7 !! m = Some st
         ∧ View.machine_items scene !! m = Some item
         ∧ View.mg_label item = m
         ∧ View.build_layout (machines Scenario.sim) !! m
           = Some (View.mg_pos item)
         ∧ View.COLORS !! color_key st = Some (View.mg_brush item)
         ∧ View.mg_indicator item = View.mg_brush item
         ∧ View.mg_queue_text item = "Queue: " +:+ pretty (queue st))
  ∧ ∀ k, is_Some (View.transport_items scene !! k)
         ↔ is_Some (active_transports Scenario.s7 !! k).
Proof.
  apply (scene_shows_the_engine Scenario.sim Scenario.s7).
  apply (reachable_step _ _ (OpAdvanceTo 7)), reachable_init.
Defined.

(** ** The clock label and the timer tick *)

Lemma string_length_app (s1 s2 : string) :
  String.length (s1 +:+ s2) = (String.length s1 + String.length s2)%nat.
Proof. induction s1 as [|a s1 IH]; simpl; [done|]. by rewrite IH. Qed.

Lemma pad2_length (n : Z) :
  0 ≤ n < 100 → String.length (Main.pad2 n) = 2%nat.
Proof.
  intros Hn.
  assert (H : forallb (λ n, Nat.eqb (String.length (Main.pad2 n)) 2)
                      (seqZ 0 100) = true) by (vm_compute; reflexivity).
  rewrite forallb_forall in H. apply Nat.eqb_eq, H.
  apply list_elem_of_In, elem_of_seqZ. lia.
Qed.

Lemma int_of_below_one (x : Q) : (x < 1)%Q → Main.int_of x ≤ 0.
Proof.
  unfold Main.int_of, Qlt. simpl. rewrite Z.mul_1_r. intros Hx.
  destruct (Z.le_gt_cases 0 (Qnum x)) as [Hpos|Hneg].
  - rewrite Z.quot_small; lia.
  - assert (H : 0 ≤ Z.quot (- Qnum x) (Z.pos (Qden x))).
    { apply Z.quot_pos; lia. }
    rewrite Z.quot_opp_l in H by lia. lia.
Qed.

(** X25.  The clock label shows whole seconds as hours, minutes and
    seconds: the minutes and seconds shown are below 60 and the three
    numbers add up to the whole seconds of the given minutes, floored
    at 0.  Times below one second, negative ones included, read
    [00:00:00], and below 100 hours the label is 8 characters long. *)
Theorem clock_label_fields (minutes : Q) :
  let total := Z.max 0 (Main.int_of (minutes * 60)) in
  (∃ h m s,
     Main.format_clock minutes
     = Main.pad2 h +:+ ":" +:+ Main.pad2 m +:+ ":" +:+ Main.pad2 s
     ∧ 0 ≤ h ∧ 0 ≤ m < 60 ∧ 0 ≤ s < 60
     ∧ 3600 * h + 60 * m + s = total)
  ∧ ((minutes * 60 < 1)%Q → Main.format_clock minutes = "00:00:00")
  ∧ (total < 360000 → String.length (Main.format_clock minutes) = 8%nat).
Proof.
  intros total. unfold Main.format_clock. fold total.
  assert (Ht : 0 ≤ total) by (unfold total; lia).
  pose proof (Z.mod_pos_bound total 3600 eq_refl) as Hm3600.
  pose proof (Z.mod_pos_bound total 60 eq_refl) as Hm60.
  pose proof (Z.div_mod total 3600 ltac:(lia)) as Hd3600.
  pose proof (Z.div_mod (total mod 3600) 60 ltac:(lia)) as Hd60.
  assert (Hmm : (total mod 3600) mod 60 = total mod 60).
  { apply Z.mod_mod_divide. exists 60. lia. }
  assert (Hmins : 0 ≤ total mod 3600 / 60 < 60).
  { split; [apply Z.div_pos; lia|].
    apply Z.div_lt_upper_bound; lia. }
  assert (Hh : 0 ≤ total / 3600) by (apply Z.div_pos; lia).
  split; [|split].
  - exists (total / 3600), (total mod 3600 / 60), (total mod 60).
    split; [done|]. split; [done|]. split; [done|]. split; [lia|]. lia.
  - intros Hlt. apply int_of_below_one in Hlt.
    assert (H0 : total = 0) by (unfold total; lia). by rewrite H0.
  - intros Hlt.
    assert (Hh' : total / 3600 < 100).
    { apply Z.div_lt_upper_bound; lia. }
    rewrite !string_length_app, !pad2_length by lia. done.
Qed.

Lemma clock_label_fields_witness :
  Main.format_clock (-3) = "00:00:00"
  ∧ String.length (Main.format_clock (12345 # 100)) = 8%nat.
Proof.
  destruct (clock_label_fields (-3)) as (_ & Hzero & _).
  destruct (clock_label_fields (12345 # 100)) as (_ & _ & Hlen).
  split; [apply Hzero; reflexivity|apply Hlen; reflexivity].
Defined.

Lemma clamp_target_upper (d : SimulationData) (t : Q) :
  (clamp_target d t <= end_time d)%Q.
Proof.
  unfold clamp_target, py_min.
  destruct (Qlt_le_dec (end_time d) (py_max t (start_time d))); lra.
Qed.

Lemma clamp_target_end (d : SimulationData) :
  clamp_target d (end_time d) = end_time d.
Proof.
  unfold clamp_target, py_min, py_max.
  destruct (Qlt_le_dec (end_time d) (start_time d)) as [H|H].
  - destruct (Qlt_le_dec (end_time d) (start_time d)); [done|lra].
  - destruct (Qlt_le_dec (end_time d) (end_time d)); [lra|done].
Qed.

Lemma count_due_proper (t t' : Q) (l : list MachineEvent) :
  (t == t')%Q → count_due t l = count_due t' l.
Proof.
  intros Heq. induction l as [|ev l IH]; simpl; [done|].
  rewrite IH.
  destruct (Qle_bool (time_min ev) t) eqn:H1,
    (Qle_bool (time_min ev) t') eqn:H2; try done.
  - apply Qle_bool_true in H1. apply Qle_bool_false in H2. lra.
  - apply Qle_bool_false in H1. apply Qle_bool_true in H2. lra.
Qed.

Lemma expired_proper (t t' : Q) (x : Transport) :
  (t == t')%Q → expired t x = expired t' x.
Proof.
  intros Heq. unfold expired. destruct (t_end_time x) as [e|]; [|done].
  destruct (Qlt_le_dec (e + (1 # 10)) t),
    (Qlt_le_dec (e + (1 # 10)) t'); try done; lra.
Qed.

(** X26.  The [seek] that [_tick] adds when the clock has reached the
    end of the log changes nothing but the flag: after a tick the
    controller has the data, pointer, machine states, registry and
    snapshot that [advance] alone gives, and a clock of the same
    value; in particular a tick never resets the engine. *)
Theorem tick_is_advance (delta : Q) (w : Main.Player) :
  let a := Main.controller (Main.tick delta w) in
  let b := advance delta (Main.controller w) in
  data a = data b
  ∧ (current_time a == current_time b)%Q
  ∧ pointer a = pointer b
  ∧ machine_states a = machine_states b
  ∧ transports a = transports b
  ∧ active_transports a = active_transports b.
Proof.
  cbv zeta. unfold Main.tick. cbv zeta.
  set (c := Main.controller w).
  set (b := advance delta c).
  destruct (Qle_bool (end_time (data b)) (current_time b)) eqn:Hend;
    [|by repeat split].
  apply Qle_bool_true in Hend. cbn [Main.toggle_playback Main.controller].
  set (T := (current_time c + delta)%Q).
  assert (Hb : b = advance_to T c) by done.
  destruct (advance_to_spec T c) as (Hd & Ht & Hp & _ & Hts & _).
  rewrite <- Hb in Hd, Ht, Hp, Hts.
  pose proof (clamp_target_upper (data c) T) as Hup.
  assert (Hcur : (current_time b == end_time (data b))%Q).
  { rewrite Ht, Hd. rewrite Hd, Ht in Hend. lra. }
  unfold seek.
  destruct (Qlt_le_dec (end_time (data b)) (current_time b)); [lra|].
  destruct (advance_to_spec (end_time (data b)) b)
    as (Hd' & Ht' & Hp' & Hms' & Hts' & Ha' & _).
  rewrite clamp_target_end in Ht', Hp', Hms', Hts', Ha'.
  assert (Hn : count_due (end_time (data b))
                 (drop (pointer b) (events (data b))) = 0%nat).
  { rewrite <- (count_due_proper _ _ _ Hcur). rewrite Ht, Hd, Hp.
    rewrite <- drop_drop. apply count_due_stop. }
  rewrite Hn in Hp', Hms', Hts', Ha'. rewrite take_0 in Hms', Hts', Ha'.
  cbn [foldl] in Hms', Hts', Ha'.
  assert (Hkeep : filter (λ kv, expired (end_time (data b)) kv.2 = false)
                    (transports b) = transports b).
  { apply map_filter_id. intros k x Hk. simpl.
    rewrite <- (expired_proper _ _ _ Hcur).
    by apply (advance_to_unexpired T c k). }
  rewrite Hkeep in Hts', Ha'.
  split; [done|]. split; [by rewrite Ht'|]. split; [lia|].
  split; [done|]. split; [done|].
  rewrite Ha'. symmetry. apply advance_to_snapshot.
Qed.

(** ** Queues and late transports *)

Lemma apply_event_queue (ev : MachineEvent) (c : SimulationController)
    (st : MachineState) :
  machine_states c !! machine ev = Some st → queue_length ev = None →
  ∃ st', machine_states (apply_event ev c) !! machine ev = Some st'
         ∧ queue st'
           = if String.eqb (event ev) "QUEUE_IN"
             then Z.max 0 (queue st + 1)
             else if String.eqb (event ev) "QUEUE_OUT"
                  then Z.max 0 (queue st - 1)
                  else queue st.
Proof.
  intros Hst Hq. rewrite apply_event_machine_states. unfold states_step.
  rewrite lookup_insert_eq, Hst. eexists. split; [done|]. simpl.
  unfold update_state, note_event. rewrite Hq.
  remember (event ev) as e eqn:He. case_names e; done.
Qed.

(** X27.  On a machine whose queue is not negative, and for events
    that carry no absolute queue length, a [QUEUE_IN] followed by a
    [QUEUE_OUT] restores the queue, while a [QUEUE_OUT] followed by a
    [QUEUE_IN] leaves it at least 1: taking from an empty queue is
    lost at the floor. *)
Theorem queue_in_then_out (i o : MachineEvent) (c : SimulationController)
    (st : MachineState) :
  event i = "QUEUE_IN" → event o = "QUEUE_OUT" →
  queue_length i = None → queue_length o = None →
  machine o = machine i →
  machine_states c !! machine i = Some st → 0 ≤ queue st →
  (∃ st', machine_states (apply_event o (apply_event i c)) !! machine i
          = Some st'
          ∧ queue st' = queue st)
  ∧ (∃ st', machine_states (apply_event i (apply_event o c)) !! machine i
            = Some st'
            ∧ queue st' = Z.max 1 (queue st)).
Proof.
  intros Hi Ho Hqi Hqo Hm Hst Hq. split.
  - destruct (apply_event_queue i c st Hst Hqi) as (st1 & Hst1 & Hq1).
    rewrite <- Hm in Hst1.
    destruct (apply_event_queue o _ st1 Hst1 Hqo) as (st2 & Hst2 & Hq2).
    rewrite Hm in Hst2. exists st2. split; [done|].
    rewrite Hq2, Hq1, Hi, Ho. simpl. lia.
  - rewrite <- Hm in Hst.
    destruct (apply_event_queue o c st Hst Hqo) as (st1 & Hst1 & Hq1).
    rewrite Hm in Hst1.
    destruct (apply_event_queue i _ st1 Hst1 Hqi) as (st2 & Hst2 & Hq2).
    exists st2. split; [done|]. rewrite Hq2, Hq1, Hi, Ho. simpl. lia.
Qed.

Lemma queue_in_then_out_witness :
  (∃ st', machine_states
            (apply_event Queueing.departure
               (apply_event Queueing.arrival Scenario.fresh)) !! "M1"
          = Some st'
          ∧ queue st' = 0)
  ∧ (∃ st', machine_states
              (apply_event Queueing.arrival
                 (apply_event Queueing.departure Scenario.fresh)) !! "M1"
            = Some st'
            ∧ queue st' = Z.max 1 0).
Proof.
  apply (queue_in_then_out Queueing.arrival Queueing.departure
           Scenario.fresh (MachineState_new "M1")); reflexivity || done.
Defined.

Lemma registry_step_other (ev : MachineEvent)
    (ts : gmap TransportKey Transport) (k : TransportKey) :
  transport_key ev ≠ k → registry_step ev ts !! k = ts !! k.
Proof.
  intros Hk. unfold registry_step.
  destruct (String.eqb (event ev) "TRANSPORT_START");
    [by rewrite lookup_insert_ne|].
  destruct (String.eqb (event ev) "TRANSPORT_END").
  { destruct (ts !! transport_key ev); [|done].
    by rewrite lookup_insert_ne. }
  destruct (String.eqb (event ev) "TRANSPORT_CANCEL"); [|done].
  by rewrite lookup_delete_ne.
Qed.

Lemma replay_registry_other (l : list MachineEvent)
    (ts : gmap TransportKey Transport) (k : TransportKey) :
  Forall (λ ev, transport_key ev ≠ k) l →
  foldl (λ ts ev, registry_step ev ts) ts l !! k = ts !! k.
Proof.
  revert ts. induction l as [|ev l IH]; intros ts Hl; simpl; [done|].
  inversion Hl; subst. rewrite IH by done. by apply registry_step_other.
Qed.

(** X28.  A transport that ended within the grace period of the end
    of the log is never evicted by [advance_to]: whatever the target,
    as long as the call applies no event of the transport's key, the
    transport stays in the registry and its copy is in the snapshot.
    The clock cannot pass [end_time], so the grace period of such a
    transport never runs out. *)
Theorem late_transport_is_kept (target : Q) (c : SimulationController)
    (k : TransportKey) (t : Transport) (e : Q) :
  transports c !! k = Some t → t_end_time t = Some e →
  (end_time (data c) <= e + (1 # 10))%Q →
  (∀ i ev, i ∈ applied_advance_to target c →
           events (data c) !! i = Some ev → transport_key ev ≠ k) →
  transports (advance_to target c) !! k = Some t
  ∧ active_transports (advance_to target c) !! k
    = Some (clone_transport t).
Proof.
  intros Hk He Hlate Hev.
  destruct (advance_to_spec target c) as (_ & _ & _ & _ & Hts & Ha & Hlog).
  rewrite Hlog in Hev. rewrite Ha, Hts, lookup_fmap.
  set (n := count_due _ _) in *.
  assert (H : filter
                (λ kv, expired (clamp_target (data c) target) kv.2 = false)
                (foldl (λ ts ev, registry_step ev ts) (transports c)
                   (take n (drop (pointer c) (events (data c))))) !! k
              = Some t).
  { apply map_lookup_filter_Some. split.
    - rewrite replay_registry_other; [done|].
      apply Forall_forall. intros ev Hin.
      apply list_elem_of_lookup in Hin as [j Hj].
      apply lookup_take_Some in Hj as [Hj Hjn]. rewrite lookup_drop in Hj.
      apply (Hev (pointer c + j)%nat); [|done].
      apply elem_of_seq. lia.
    - simpl. unfold expired. rewrite He.
      pose proof (clamp_target_upper (data c) target).
      destruct (Qlt_le_dec (e + (1 # 10)) (clamp_target (data c) target));
        [lra|done]. }
  by rewrite H.
Qed.

Lemma late_transport_is_kept_witness :
  transports (advance_to 1000 Scenario.s15) !! Scenario.P1
  = Some Scenario.arrived
  ∧ active_transports (advance_to 1000 Scenario.s15) !! Scenario.P1
    = Some (clone_transport Scenario.arrived).
Proof.
  apply (late_transport_is_kept 1000 Scenario.s15 Scenario.P1
           Scenario.arrived 15).
  - vm_compute. reflexivity.
  - reflexivity.
  - vm_compute. discriminate.
  - intros i ev Hi. vm_compute in Hi. exfalso.
    exact (proj1 (elem_of_nil i) Hi).
Defined.
